(** * BlogList: the post query engine of the portfolio blog

    A shallow embedding of the filtering, faceting and sorting logic of
    [src/components/blog/BlogList.tsx] and of its near-duplicate copy
    ([src/unnamed/part_000]), together with the small part of the
    JavaScript runtime that this logic calls into (strings as UTF-16 code
    unit sequences, [String.prototype.includes], insertion-ordered [Set],
    [Array.prototype.sort]). *)

From Stdlib Require Import ZArith NArith List Sorted Permutation Lia String Ascii.
From stdpp Require Import base decidable list gmap sorting.

Local Open Scope Z_scope.

(** ** The JavaScript runtime, as far as the component uses it *)

Module JS.

(** A JavaScript string is a finite sequence of UTF-16 code units. *)
Abbreviation jsstring := (list N).

(** ASCII literals of the source text, as code unit sequences. *)
Definition lit (s : string) : jsstring :=
  List.map N_of_ascii (list_ascii_of_string s).

(** Comparison of two strings by code units: this is the order of the
    relational operators on strings, and hence of [Array.prototype.sort]
    called without a comparator. *)
Fixpoint compareUnits (a b : list N) : comparison :=
  match a, b with
  | [], [] => Eq
  | [], _ :: _ => Lt
  | _ :: _, [] => Gt
  | x :: a', y :: b' =>
      match N.compare x y with
      | Eq => compareUnits a' b'
      | c => c
      end
  end.

(** [SortCompare] without a user comparator: -1, 0 or 1. *)
Definition defaultCompare (a b : jsstring) : Z :=
  match compareUnits a b with
  | Lt => -1
  | Eq => 0
  | Gt => 1
  end.

(** The code points of a string: a high surrogate followed by a low
    surrogate is one supplementary code point, every other code unit is a
    code point of its own ([String.prototype.codePointAt]). *)
Definition isHighSurrogate (u : N) : bool := ((0xD800 <=? u) && (u <=? 0xDBFF))%N.
Definition isLowSurrogate (u : N) : bool := ((0xDC00 <=? u) && (u <=? 0xDFFF))%N.

Fixpoint codePoints (s : jsstring) : list N :=
  match s with
  | [] => []
  | h :: t =>
      match t with
      | l :: s' =>
          if isHighSurrogate h && isLowSurrogate l
          then (0x10000 + (h - 0xD800) * 0x400 + (l - 0xDC00))%N :: codePoints s'
          else h :: codePoints t
      | [] => [h]
      end
  end.

Fixpoint hasSurrogatePair (s : jsstring) : bool :=
  match s with
  | [] => false
  | h :: t =>
      match t with
      | l :: _ => (isHighSurrogate h && isLowSurrogate l) || hasSurrogatePair t
      | [] => false
      end
  end.

Definition compareCodePoints (a b : jsstring) : comparison :=
  compareUnits (codePoints a) (codePoints b).

(** [s.startsWith(q)] and [s.includes(q)] on strings. *)
Fixpoint startsWith (s q : jsstring) {struct q} : bool :=
  match q, s with
  | [], _ => true
  | _ :: _, [] => false
  | c :: q', d :: s' => bool_decide (c = d) && startsWith s' q'
  end.

Fixpoint includes (s q : jsstring) : bool :=
  startsWith s q ||
  match s with
  | [] => false
  | _ :: s' => includes s' q
  end.

(** [arr.includes(x)] on an array of strings. *)
Definition arrayIncludes (arr : list jsstring) (x : jsstring) : bool :=
  bool_decide (x ∈ arr).

(** A [Set] of strings keeps its members in insertion order; [add] of a
    member that is present changes nothing. *)
Definition setAdd (x : jsstring) (s : list jsstring) : list jsstring :=
  if bool_decide (x ∈ s) then s else s ++ [x].

(** [Array.prototype.sort(cmp)]. The language fixes the result for a
    consistent comparator: the stable sorted permutation of the input
    (an element moves in front of another only when the comparator says
    it is strictly smaller). That list is unique, and it is the one the
    insertion below builds; only the sign of [cmp] is looked at. For a
    comparator that is not consistent the language leaves the order to
    the engine, and asks for a permutation only; the insertion is then
    one engine among others (see [conforming]). *)
Fixpoint insertSorted {A} (cmp : A -> A -> Z) (x : A) (l : list A) : list A :=
  match l with
  | [] => [x]
  | y :: l' => if 0 <? cmp x y then y :: insertSorted cmp x l' else x :: l
  end.

Definition sort {A} (cmp : A -> A -> Z) (l : list A) : list A :=
  List.fold_right (insertSorted cmp) [] l.

(** The numbers the component computes with: time values and their
    differences, which are integers, and NaN. (A difference of two time
    values may be rounded as a double, which keeps its sign; the sort
    looks at the sign only.) *)
Inductive number := NaN | Num (z : Z).

Definition minus (a b : number) : number :=
  match a, b with
  | Num x, Num y => Num (x - y)
  | _, _ => NaN
  end.

(** A [Date] holds a time value in milliseconds, or none when it is an
    Invalid Date; [getTime()] answers NaN for the latter. [new Date(d)]
    of a [Date] is a [Date] of the same time value. *)
Inductive Date := InvalidDate | DateAt (ms : Z).

#[global] Instance number_eq_dec : EqDecision number.
Proof. solve_decision. Defined.
#[global] Instance Date_eq_dec : EqDecision Date.
Proof. solve_decision. Defined.

Definition getTime (d : Date) : number :=
  match d with
  | DateAt ms => Num ms
  | InvalidDate => NaN
  end.

(** [Array.prototype.sort(comparefn)] reads what [comparefn] answers
    through CompareArrayElements: NaN counts as +0. *)
Definition compareElements {A} (comparefn : A -> A -> number) (x y : A) : Z :=
  match comparefn x y with
  | Num v => v
  | NaN => 0
  end.

(** A consistent comparator for the values [S], in the words of the
    language: it never answers NaN, and [= 0] is reflexive, symmetric
    and transitive, [< 0] is transitive and [> 0] is transitive. *)
Definition consistentComparator {A} (comparefn : A -> A -> number) (S : list A)
    : Prop :=
  Forall (fun a => Forall (fun b => comparefn a b <> NaN) S) S
  /\ Forall (fun a => compareElements comparefn a a = 0) S
  /\ Forall (fun a => Forall (fun b =>
       compareElements comparefn a b = 0 -> compareElements comparefn b a = 0) S) S
  /\ Forall (fun a => Forall (fun b => Forall (fun c =>
       compareElements comparefn a b = 0 -> compareElements comparefn b c = 0 ->
       compareElements comparefn a c = 0) S) S) S
  /\ Forall (fun a => Forall (fun b => Forall (fun c =>
       compareElements comparefn a b < 0 -> compareElements comparefn b c < 0 ->
       compareElements comparefn a c < 0) S) S) S
  /\ Forall (fun a => Forall (fun b => Forall (fun c =>
       compareElements comparefn a b > 0 -> compareElements comparefn b c > 0 ->
       compareElements comparefn a c > 0) S) S) S.

#[global] Instance consistentComparator_dec {A} (comparefn : A -> A -> number)
    (S : list A) : Decision (consistentComparator comparefn S).
Proof. unfold consistentComparator. apply _. Defined.

(** The order a comparator stands for: [a] may come before [b]. *)
Definition notAfter {A} (cmp : A -> A -> Z) (a b : A) : Prop := cmp a b <= 0.

(** Two elements between which the comparator does not decide. *)
Definition tied {A} (cmp : A -> A -> Z) (a b : A) : bool :=
  (cmp a b <=? 0) && (cmp b a <=? 0).

(** [q] occurs in [s]. *)
Definition isSubstring (q s : jsstring) : Prop :=
  exists before after, s = before ++ q ++ after.

(** [s.slice(0, n)] for a count [n]: the first [n] code units, or all of
    [s] when it has fewer. *)
Definition sliceTo (n : nat) (s : jsstring) : jsstring := firstn n s.

(** The code units [trim] removes: the WhiteSpace and LineTerminator
    productions of the language. *)
Definition isWhiteSpace (u : N) : bool :=
  (((0x09 <=? u) && (u <=? 0x0D))
   || (u =? 0x20) || (u =? 0xA0) || (u =? 0x1680)
   || ((0x2000 <=? u) && (u <=? 0x200A))
   || (u =? 0x2028) || (u =? 0x2029) || (u =? 0x202F) || (u =? 0x205F)
   || (u =? 0x3000) || (u =? 0xFEFF))%N.

Fixpoint trimStart (s : jsstring) : jsstring :=
  match s with
  | [] => []
  | u :: s' => if isWhiteSpace u then trimStart s' else s
  end.

Definition trimEnd (s : jsstring) : jsstring := rev (trimStart (rev s)).

Definition trim (s : jsstring) : jsstring := trimEnd (trimStart s).

(** The two locale-dependent string operations, which the runtime takes
    from its Unicode tables: [s.toLowerCase()] and [a.localeCompare(b)]. *)
Class Intl := {
  toLowerCase : jsstring -> jsstring;
  localeCompare : jsstring -> jsstring -> Z
}.

(** What the language guarantees of them. *)
Definition lowerOfEmpty `{Intl} : Prop := toLowerCase [] = [].

Record consistentCompare `{Intl} : Prop := {
  compare_refl : forall a, localeCompare a a = 0;
  compare_flip : forall a b, Z.sgn (localeCompare b a) = - Z.sgn (localeCompare a b);
  compare_trans : forall a b c,
    localeCompare a b <= 0 -> localeCompare b c <= 0 -> localeCompare a c <= 0
}.

(** An instance to compute with: ASCII lower-casing and code unit order. *)
Definition asciiLowerUnit (u : N) : N :=
  if ((65 <=? u) && (u <=? 90))%N then (u + 32)%N else u.

Definition asciiIntl : Intl := {|
  toLowerCase := List.map asciiLowerUnit;
  localeCompare := defaultCompare
|}.

End JS.

Import JS.

(** ** The data the component receives *)

Record PostData := {
  title : jsstring;
  description : jsstring;
  pubDate : Date;                    (* [pubDate: Date], valid or not *)
  heroImage : option jsstring;       (* passed through, never inspected *)
  tags : option (list jsstring)      (* [tags?: string[]] *)
}.

Record Post := {
  id : jsstring;
  slug : jsstring;
  data : PostData;
  readingTime : jsstring
}.

#[global] Instance PostData_eq_dec : EqDecision PostData.
Proof. solve_decision. Defined.
#[global] Instance Post_eq_dec : EqDecision Post.
Proof. solve_decision. Defined.

(** The three [useState] cells of the component. *)
Record QueryState := {
  search : jsstring;
  selectedTags : list jsstring;
  sortOrder : jsstring
}.

Definition initialState : QueryState :=
  {| search := lit ""; selectedTags := []; sortOrder := lit "newest" |}.

(** The setters that [useState] hands out: each replaces one cell and
    leaves the other two alone. [setSelectedTags] is used in its updater
    form. No setter inspects the value it is given. *)
Definition setSearch (value : jsstring) (st : QueryState) : QueryState :=
  {| search := value; selectedTags := selectedTags st; sortOrder := sortOrder st |}.

Definition setSelectedTags (updater : list jsstring -> list jsstring)
    (st : QueryState) : QueryState :=
  {| search := search st; selectedTags := updater (selectedTags st);
     sortOrder := sortOrder st |}.

Definition setSortOrder (value : jsstring) (st : QueryState) : QueryState :=
  {| search := search st; selectedTags := selectedTags st; sortOrder := value |}.

(** ** src/components/blog/BlogList.tsx *)

Module BlogList.
Section WithIntl.
Context `{Intl}.

(** [allTags]: every tag of every post is added to a [Set], whose members
    are then sorted with the default comparator. A post without [tags]
    adds nothing ([post.data.tags?.forEach]). *)
Definition addPostTags (tagSet : list jsstring) (post : Post) : list jsstring :=
  match tags (data post) with
  | Some ts => fold_left (fun tagSet tag => setAdd tag tagSet) ts tagSet
  | None => tagSet
  end.

Definition collectTags (posts : list Post) : list jsstring :=
  fold_left addPostTags posts [].

Definition allTags (posts : list Post) : list jsstring :=
  sort defaultCompare (collectTags posts).

Definition matchesSearch (search : jsstring) (post : Post) : bool :=
  includes (toLowerCase (title (data post))) (toLowerCase search)
  || includes (toLowerCase (description (data post))) (toLowerCase search).

(** [post.data.tags?.includes(tag)] is [undefined], hence falsy, when the
    post has no [tags]. *)
Definition postHasTag (post : Post) (tag : jsstring) : bool :=
  match tags (data post) with
  | Some ts => arrayIncludes ts tag
  | None => false
  end.

Definition matchesTags (selectedTags : list jsstring) (post : Post) : bool :=
  bool_decide (length selectedTags = 0%nat)
  || forallb (postHasTag post) selectedTags.

(** The function handed to [sort]. With an Invalid Date on either side
    the difference of the two [getTime()] is NaN. *)
Definition comparator (sortOrder : jsstring) (a b : Post) : number :=
  if bool_decide (sortOrder = lit "newest") then
    minus (getTime (pubDate (data b))) (getTime (pubDate (data a)))
  else if bool_decide (sortOrder = lit "oldest") then
    minus (getTime (pubDate (data a))) (getTime (pubDate (data b)))
  else if bool_decide (sortOrder = lit "a-z") then
    Num (localeCompare (title (data a)) (title (data b)))
  else
    Num (localeCompare (title (data b)) (title (data a))).

Definition keep (search : jsstring) (selectedTags : list jsstring)
    (post : Post) : bool :=
  matchesSearch search post && matchesTags selectedTags post.

Definition filteredPosts (posts : list Post) (search : jsstring)
    (selectedTags : list jsstring) (sortOrder : jsstring) : list Post :=
  sort (compareElements (comparator sortOrder))
    (List.filter (keep search selectedTags) posts).

(** The key the comparator compares under a sort order, and whether two
    posts have the same one. *)
Definition sortsByDate (sortOrder : jsstring) : bool :=
  bool_decide (sortOrder = lit "newest") || bool_decide (sortOrder = lit "oldest").

Definition sameKey (sortOrder : jsstring) (a b : Post) : bool :=
  if sortsByDate sortOrder
  then bool_decide (pubDate (data a) = pubDate (data b))
  else bool_decide (title (data a) = title (data b)).

Definition toggleTag (tag : jsstring) : QueryState -> QueryState :=
  setSelectedTags
    (fun prev =>
       if arrayIncludes prev tag
       then List.filter (fun t => negb (bool_decide (t = tag))) prev
       else prev ++ [tag]).

(** What the component shows for a state: the list and its length. *)
Definition results (posts : list Post) (st : QueryState) : list Post :=
  filteredPosts posts (search st) (selectedTags st) (sortOrder st).

Definition resultCount (posts : list Post) (st : QueryState) : nat :=
  length (results posts st).

End WithIntl.

(** The three handlers wired to the input, the tag buttons and the
    select box. *)
Inductive event :=
| SearchTyped (value : jsstring)
| TagClicked (tag : jsstring)
| SortChosen (value : jsstring).

Definition handle (e : event) : QueryState -> QueryState :=
  match e with
  | SearchTyped value => setSearch value
  | TagClicked tag => toggleTag tag
  | SortChosen value => setSortOrder value
  end.

Definition run (es : list event) (st : QueryState) : QueryState :=
  fold_left (fun st e => handle e st) es st.

End BlogList.

(** ** src/unnamed/part_000

    The copy differs from [BlogList.tsx] in the tag test of the filter
    ([some] where the other has [every]); its vocabulary, search test,
    comparator and handlers are the same text, so they are shared. *)

Module Copy.
Section WithIntl.
Context `{Intl}.

Definition matchesTags (selectedTags : list jsstring) (post : Post) : bool :=
  bool_decide (length selectedTags = 0%nat)
  || existsb (BlogList.postHasTag post) selectedTags.

Definition keep (search : jsstring) (selectedTags : list jsstring)
    (post : Post) : bool :=
  BlogList.matchesSearch search post && matchesTags selectedTags post.

Definition filteredPosts (posts : list Post) (search : jsstring)
    (selectedTags : list jsstring) (sortOrder : jsstring) : list Post :=
  sort (compareElements (BlogList.comparator sortOrder))
    (List.filter (keep search selectedTags) posts).

Definition results (posts : list Post) (st : QueryState) : list Post :=
  filteredPosts posts (search st) (selectedTags st) (sortOrder st).

End WithIntl.
End Copy.

(** ** What the component renders

    The parts of the returned markup that are computed: the shortened
    description, the tag badges of a post, the pressed state of a tag
    button, the keys of the list items and the empty-list notice. They
    are the same text in both files. *)

Module View.

(** [truncateDescription(text, maxLength = 150)]; the suffix has four
    dots. *)
Definition truncateDescription (text : jsstring) (maxLength : nat) : jsstring :=
  if (length text <=? maxLength)%nat then text
  else trim (sliceTo maxLength text) ++ lit "....".

Definition defaultMaxLength : nat := 150.

(** [post.data.tags && post.data.tags.slice(0, 3).map(...)]: an array,
    empty or not, is truthy. *)
Definition tagBadges (post : Post) : option (list jsstring) :=
  match tags (data post) with
  | Some ts => Some (firstn 3 ts)
  | None => None
  end.

(** [selectedTags.includes(tag)] picks the class of a tag button. *)
Definition tagPressed (st : QueryState) (tag : jsstring) : bool :=
  arrayIncludes (selectedTags st) tag.

(** [key={post.id}] of the items and [key={tag}] of the buttons. *)
Definition itemKeys (shown : list Post) : list jsstring := List.map id shown.

(** [filteredPosts.length === 0 && ...]: the notice that nothing matches. *)
Definition noPostsFound (shown : list Post) : bool :=
  bool_decide (length shown = 0%nat).

End View.

(** ** Dates that are dates, and the engines' freedom *)

(** The post has a publication date that is a date. *)
Definition validDate (post : Post) : Prop := pubDate (data post) <> InvalidDate.

(** The post has one when the sort order goes by date. *)
Definition datedFor (sortOrder : jsstring) (post : Post) : Prop :=
  BlogList.sortsByDate sortOrder = true -> validDate post.

(** [a] was published at the time of [b] or later; at that time or
    earlier. Neither holds of a post without a valid date. *)
Definition publishedNotBefore (a b : Post) : Prop :=
  match pubDate (data a), pubDate (data b) with
  | DateAt x, DateAt y => y <= x
  | _, _ => False
  end.

Definition publishedNotAfter (a b : Post) : Prop :=
  match pubDate (data a), pubDate (data b) with
  | DateAt x, DateAt y => x <= y
  | _, _ => False
  end.




(** How often the button of a tag is pressed in a sequence of events. *)
Definition clicks (tag : jsstring) (es : list BlogList.event) : nat :=
  length
    (List.filter
       (fun e => match e with
                 | BlogList.TagClicked t => bool_decide (t = tag)
                 | _ => false
                 end)
       es).

(** ** The orchestrator as the specification words it

    [spec_setSortOrder] follows the specification: a value outside the
    four sort orders is rejected. It is compared with [setSortOrder]. *)

Definition sortOrders : list jsstring :=
  [lit "newest"; lit "oldest"; lit "a-z"; lit "z-a"].

Inductive error := InvalidArgument.

Definition spec_setSortOrder (value : jsstring) (st : QueryState)
    : error + QueryState :=
  if bool_decide (value ∈ sortOrders) then inr (setSortOrder value st)
  else inl InvalidArgument.

(** A post, for the examples. *)
Definition mkPost (t d : string) (date : Z) (ts : option (list jsstring)) : Post :=
  {| id := lit t; slug := lit t;
     data := {| title := lit t; description := lit d; pubDate := DateAt date;
                heroImage := None; tags := ts |};
     readingTime := lit "1 min read" |}.

(** The two posts of the specification's scenarios. *)
Definition scenarioPosts : list Post :=
  [mkPost "Alpha" "first post" 1672531200000 (Some [lit "x"]);
   mkPost "Beta" "second post" 1704067200000 (Some [lit "y"])].

(** A post whose tags are U+FF5E and U+1F600 (code units D83D DE00). *)
Definition supplementaryPosts : list Post :=
  [mkPost "Reactions" "" 0 (Some [[0xFF5E%N]; [0xD83D%N; 0xDE00%N]])].

(** A post tagged [x] alone, and the selection of [x] and [y]. *)
Definition postTaggedX : Post := mkPost "Alpha" "" 1672531200000 (Some [lit "x"]).
Definition selectionXY : list jsstring := [lit "x"; lit "y"].

(** Three posts, the first two published at the same time. *)
Definition tiedPosts : list Post :=
  [mkPost "Delta" "" 5 None; mkPost "Alpha" "" 5 None; mkPost "Gamma" "" 7 None].

(** A post with an Invalid Date. *)
Definition undated (t : string) : Post :=
  {| id := lit t; slug := lit t;
     data := {| title := lit t; description := lit ""; pubDate := InvalidDate;
                heroImage := None; tags := None |};
     readingTime := lit "1 min read" |}.

(** Four posts, the second with an Invalid Date; and three, the outer
    two published at the same time. *)
Definition undatedAmongPosts : list Post :=
  [mkPost "A" "" 5 None; undated "Bad"; mkPost "C" "" 7 None; mkPost "D" "" 6 None].


(** A tag is in the posts when some post lists it. *)
Definition taggedWith (posts : list Post) (t : jsstring) : Prop :=
  exists post ts, post ∈ posts /\ tags (data post) = Some ts /\ t ∈ ts.

(** ** Facts about the runtime model *)

Section SortFacts.
Context {A : Type} (cmp : A -> A -> Z).

Lemma insertSorted_perm x l : insertSorted cmp x l ≡ₚ x :: l.
Proof.
  induction l as [|y l IH]; simpl; [done|].
  destruct (0 <? cmp x y); [|done].
  rewrite IH. apply Permutation_swap.
Qed.

Lemma sort_perm l : sort cmp l ≡ₚ l.
Proof.
  induction l as [|x l IH]; simpl; [done|].
  rewrite insertSorted_perm. by rewrite IH.
Qed.

Lemma sort_elem x l : x ∈ sort cmp l <-> x ∈ l.
Proof. by rewrite sort_perm. Qed.

Lemma sort_length l : length (sort cmp l) = length l.
Proof. by rewrite sort_perm. Qed.

(** Stability: a family of elements none of which the comparator puts
    strictly after another keeps its order through the sort. *)
Lemma insertSorted_filter (P : A -> bool) x l :
  (forall a b, P a = true -> P b = true -> cmp a b <= 0) ->
  List.filter P (insertSorted cmp x l) = List.filter P (x :: l).
Proof.
  intros HP. induction l as [|y l IH]; [done|].
  cbn [insertSorted]. destruct (0 <? cmp x y) eqn:Hxy; [|done].
  apply Z.ltb_lt in Hxy.
  cbn [List.filter] in *. rewrite IH.
  destruct (P x) eqn:Hx, (P y) eqn:Hy; try done.
  specialize (HP x y Hx Hy). lia.
Qed.

Lemma sort_stable (P : A -> bool) l :
  (forall a b, P a = true -> P b = true -> cmp a b <= 0) ->
  List.filter P (sort cmp l) = List.filter P l.
Proof.
  intros HP. induction l as [|x l IH]; [done|].
  cbn [sort List.fold_right]. rewrite insertSorted_filter by done.
  cbn [List.filter]. fold (sort cmp l). by rewrite IH.
Qed.

(** Sortedness, for a comparator that is total and transitive. *)
Hypothesis cmp_total : forall a b, 0 < cmp a b -> cmp b a <= 0.
Hypothesis cmp_trans : forall a b c, cmp a b <= 0 -> cmp b c <= 0 -> cmp a c <= 0.

Lemma insertSorted_sorted x l :
  StronglySorted (notAfter cmp) l -> StronglySorted (notAfter cmp) (insertSorted cmp x l).
Proof using cmp_total cmp_trans.
  induction 1 as [|y l Hl IH Hy]; simpl.
  { repeat constructor. }
  destruct (0 <? cmp x y) eqn:Hxy.
  - apply Z.ltb_lt in Hxy. constructor; [done|].
    rewrite insertSorted_perm. constructor; [by apply cmp_total|done].
  - apply Z.ltb_ge in Hxy. constructor; [by constructor|].
    constructor; [done|].
    eapply Forall_impl; [exact Hy|]. intros z Hz. by eapply cmp_trans.
Qed.

Lemma sort_sorted l : StronglySorted (notAfter cmp) (sort cmp l).
Proof using cmp_total cmp_trans.
  induction l as [|x l IH]; simpl; [constructor|by apply insertSorted_sorted].
Qed.

(** The stable sorted arrangement of a list is unique, so the list
    [sort] builds is the one every conforming engine returns. *)
Hypothesis cmp_refl : forall a, cmp a a <= 0.

Lemma tied_spec a b : tied cmp a b = true <-> cmp a b <= 0 /\ cmp b a <= 0.
Proof. unfold tied. rewrite andb_true_iff, !Z.leb_le. tauto. Qed.

Lemma sorted_head_first x l y :
  StronglySorted (notAfter cmp) (x :: l) -> y ∈ x :: l -> cmp x y <= 0.
Proof using cmp_refl.
  intros Hs Hy. apply StronglySorted_inv in Hs as [_ Hx].
  apply elem_of_cons in Hy as [->|Hy]; [apply cmp_refl|].
  rewrite Forall_forall in Hx. by apply Hx.
Qed.

Lemma sorted_determined l1 l2 :
  StronglySorted (notAfter cmp) l1 -> StronglySorted (notAfter cmp) l2 ->
  (forall x, List.filter (tied cmp x) l1 = List.filter (tied cmp x) l2) ->
  l1 = l2.
Proof using cmp_refl.
  assert (Hself : forall a, tied cmp a a = true).
  { intros a. apply tied_spec. split; apply cmp_refl. }
  revert l2. induction l1 as [|a l1 IH]; intros [|b l2] Hs1 Hs2 Hsame; [done| | |].
  - specialize (Hsame b). simpl in Hsame. by rewrite Hself in Hsame.
  - specialize (Hsame a). simpl in Hsame. by rewrite Hself in Hsame.
  - assert (Ha : a ∈ b :: l2).
    { pose proof (Hsame a) as Hfa. cbn [List.filter] in Hfa. rewrite Hself in Hfa.
      assert (Hin : In a (List.filter (tied cmp a) (b :: l2))).
      { cbn [List.filter]. rewrite <- Hfa. by left. }
      apply filter_In in Hin as [Hin _]. by apply list_elem_of_In. }
    assert (Hb : b ∈ a :: l1).
    { pose proof (Hsame b) as Hfb. cbn [List.filter] in Hfb. rewrite Hself in Hfb.
      assert (Hin : In b (List.filter (tied cmp b) (a :: l1))).
      { cbn [List.filter]. rewrite Hfb. by left. }
      apply filter_In in Hin as [Hin _]. by apply list_elem_of_In. }
    assert (Hab : tied cmp a b = true).
    { apply tied_spec. split; by eapply sorted_head_first. }
    assert (a = b) as <-.
    { pose proof (Hsame a) as Hfa. cbn [List.filter] in Hfa.
      rewrite Hself, Hab in Hfa. by injection Hfa. }
    f_equal. apply IH.
    + by apply StronglySorted_inv in Hs1 as [? _].
    + by apply StronglySorted_inv in Hs2 as [? _].
    + intros x. specialize (Hsame x). cbn [List.filter] in Hsame.
      destruct (tied cmp x a); [by injection Hsame|done].
Qed.

Lemma sort_unique l l' :
  StronglySorted (notAfter cmp) l' ->
  (forall x, List.filter (tied cmp x) l' = List.filter (tied cmp x) l) ->
  l' = sort cmp l.
Proof using cmp_total cmp_trans cmp_refl.
  intros Hs Hstable. apply sorted_determined; [done|apply sort_sorted|].
  intros x. rewrite Hstable. symmetry. apply sort_stable.
  intros a b [_ Hax]%tied_spec [Hxb _]%tied_spec. by eapply cmp_trans.
Qed.

End SortFacts.

Lemma StronglySorted_weaken {A} (R S : A -> A -> Prop) l :
  (forall a b, R a b -> S a b) -> StronglySorted R l -> StronglySorted S l.
Proof.
  intros HRS. induction 1 as [|x l Hl IH Hx]; constructor; [done|].
  eapply Forall_impl; [exact Hx|]. auto.
Qed.

(** Every earlier element of a strongly sorted list is related to every
    later one. *)
Lemma StronglySorted_pairs {A} (R : A -> A -> Prop) l i j a b :
  StronglySorted R l -> (i < j)%nat -> l !! i = Some a -> l !! j = Some b -> R a b.
Proof.
  intros Hl. revert i j. induction Hl as [|x l Hl IH Hx]; intros i j Hij Hi Hj.
  { by rewrite lookup_nil in Hi. }
  destruct j as [|j]; [lia|]. simpl in Hj.
  destruct i as [|i].
  - simpl in Hi. injection Hi as ->.
    rewrite Forall_forall in Hx. apply Hx. by eapply list_elem_of_lookup_2.
  - simpl in Hi. apply (IH i j); [lia|done|done].
Qed.

(** The same facts for a comparator that keeps the laws on some of the
    values only, as the comparator of the posts does on those posts that
    have a date. *)
Section SortOn.
Context {A : Type} (cmp : A -> A -> Z) (ok : A -> Prop).
Hypothesis total_on : forall a b, ok a -> ok b -> 0 < cmp a b -> cmp b a <= 0.
Hypothesis trans_on : forall a b c, ok a -> ok b -> ok c ->
  cmp a b <= 0 -> cmp b c <= 0 -> cmp a c <= 0.
Hypothesis refl_on : forall a, ok a -> cmp a a <= 0.

Lemma sort_ok l : Forall ok l -> Forall ok (sort cmp l).
Proof. intros Hl. by rewrite sort_perm. Qed.

Lemma insertSorted_sorted_on x l :
  ok x -> Forall ok l ->
  StronglySorted (notAfter cmp) l -> StronglySorted (notAfter cmp) (insertSorted cmp x l).
Proof using total_on trans_on.
  intros Hx Hok Hs. induction Hs as [|y l Hl IH Hy]; simpl.
  { repeat constructor. }
  apply Forall_cons in Hok as [Hoky Hok].
  destruct (0 <? cmp x y) eqn:Hxy.
  - apply Z.ltb_lt in Hxy. constructor; [by apply IH|].
    rewrite insertSorted_perm. constructor; [by apply total_on|done].
  - apply Z.ltb_ge in Hxy. constructor; [by constructor|].
    constructor; [done|].
    rewrite Forall_forall in Hy, Hok. apply Forall_forall. intros z Hz.
    apply (trans_on x y z); auto. by apply Hy.
Qed.

Lemma sort_sorted_on l :
  Forall ok l -> StronglySorted (notAfter cmp) (sort cmp l).
Proof using total_on trans_on.
  induction l as [|x l IH]; simpl; [constructor|].
  intros [Hx Hl]%Forall_cons.
  apply insertSorted_sorted_on; [done|by apply sort_ok|by apply IH].
Qed.

Lemma insertSorted_filter_on (P : A -> bool) x l :
  (forall a b, ok a -> ok b -> P a = true -> P b = true -> cmp a b <= 0) ->
  ok x -> Forall ok l ->
  List.filter P (insertSorted cmp x l) = List.filter P (x :: l).
Proof.
  intros HP Hx Hok. induction l as [|y l IH]; [done|].
  apply Forall_cons in Hok as [Hoky Hok].
  cbn [insertSorted]. destruct (0 <? cmp x y) eqn:Hxy; [|done].
  apply Z.ltb_lt in Hxy.
  cbn [List.filter] in *. rewrite IH by done.
  destruct (P x) eqn:HPx, (P y) eqn:HPy; try done.
  specialize (HP x y Hx Hoky HPx HPy). lia.
Qed.

Lemma sort_stable_on (P : A -> bool) l :
  (forall a b, ok a -> ok b -> P a = true -> P b = true -> cmp a b <= 0) ->
  Forall ok l ->
  List.filter P (sort cmp l) = List.filter P l.
Proof.
  intros HP. induction l as [|x l IH]; [done|].
  intros [Hx Hl]%Forall_cons.
  cbn [sort List.fold_right]. fold (sort cmp l).
  rewrite insertSorted_filter_on; [|done|done|by apply sort_ok].
  cbn [List.filter]. by rewrite IH.
Qed.

Lemma sort_ties_on x l :
  ok x -> Forall ok l ->
  List.filter (tied cmp x) (sort cmp l) = List.filter (tied cmp x) l.
Proof using trans_on.
  intros Hx Hl. apply sort_stable_on; [|done].
  intros a b Ha Hb [_ Hax]%andb_true_iff [Hxb _]%andb_true_iff.
  apply Z.leb_le in Hax, Hxb. by apply (trans_on a x b).
Qed.

Lemma sorted_determined_on l1 l2 :
  Forall ok l1 -> Forall ok l2 ->
  StronglySorted (notAfter cmp) l1 -> StronglySorted (notAfter cmp) l2 ->
  (forall x, ok x -> List.filter (tied cmp x) l1 = List.filter (tied cmp x) l2) ->
  l1 = l2.
Proof using refl_on.
  assert (Hself : forall a, ok a -> tied cmp a a = true).
  { intros a Ha. unfold tied. pose proof (refl_on a Ha).
    apply andb_true_iff. split; by apply Z.leb_le. }
  assert (Hhead : forall x l y, ok y ->
            StronglySorted (notAfter cmp) (x :: l) -> y ∈ x :: l -> cmp x y <= 0).
  { intros x l y Hy Hs Hin. apply StronglySorted_inv in Hs as [_ Hx].
    apply elem_of_cons in Hin as [->|Hin]; [by apply refl_on|].
    rewrite Forall_forall in Hx. by apply Hx. }
  revert l2. induction l1 as [|a l1 IH]; intros [|b l2] Hok1 Hok2 Hs1 Hs2 Hsame;
    [done| | |].
  - apply Forall_cons in Hok2 as [Hb _].
    specialize (Hsame b Hb). simpl in Hsame. by rewrite Hself in Hsame.
  - apply Forall_cons in Hok1 as [Ha _].
    specialize (Hsame a Ha). simpl in Hsame. by rewrite Hself in Hsame.
  - apply Forall_cons in Hok1 as [Ha Hok1]. apply Forall_cons in Hok2 as [Hb Hok2].
    assert (Hina : a ∈ b :: l2).
    { pose proof (Hsame a Ha) as Hfa. cbn [List.filter] in Hfa.
      rewrite Hself in Hfa by done.
      assert (Hin : In a (List.filter (tied cmp a) (b :: l2))).
      { cbn [List.filter]. rewrite <- Hfa. by left. }
      apply filter_In in Hin as [Hin _]. by apply list_elem_of_In. }
    assert (Hinb : b ∈ a :: l1).
    { pose proof (Hsame b Hb) as Hfb. cbn [List.filter] in Hfb.
      rewrite Hself in Hfb by done.
      assert (Hin : In b (List.filter (tied cmp b) (a :: l1))).
      { cbn [List.filter]. rewrite Hfb. by left. }
      apply filter_In in Hin as [Hin _]. by apply list_elem_of_In. }
    assert (Hab : tied cmp a b = true).
    { unfold tied. apply andb_true_iff. split; apply Z.leb_le; by eapply Hhead. }
    assert (a = b) as <-.
    { pose proof (Hsame a Ha) as Hfa. cbn [List.filter] in Hfa.
      rewrite Hself, Hab in Hfa by done. by injection Hfa. }
    f_equal. apply IH; try done.
    + by apply StronglySorted_inv in Hs1 as [? _].
    + by apply StronglySorted_inv in Hs2 as [? _].
    + intros x Hx. specialize (Hsame x Hx). cbn [List.filter] in Hsame.
      destruct (tied cmp x a); [by injection Hsame|done].
Qed.

(** Leaving elements out after sorting is sorting what is left. *)
Lemma sort_filter_on (P : A -> bool) l :
  Forall ok l ->
  List.filter P (sort cmp l) = sort cmp (List.filter P l).
Proof using total_on trans_on refl_on.
  intros Hl.
  assert (Hfl : Forall ok (List.filter P l)).
  { rewrite Forall_forall in *. intros x Hx. apply Hl.
    apply list_elem_of_In, filter_In in Hx as [Hx _]. by apply list_elem_of_In. }
  assert (Hswap : forall (Q : A -> bool) (m : list A),
            List.filter Q (List.filter P m) = List.filter P (List.filter Q m)).
  { intros Q m. induction m as [|y m IHm]; simpl; [done|].
    destruct (P y) eqn:HP, (Q y) eqn:HQ; simpl; rewrite ?HP, ?HQ, IHm; done. }
  assert (Hsub : forall m, StronglySorted (notAfter cmp) m ->
                   StronglySorted (notAfter cmp) (List.filter P m)).
  { induction 1 as [|y m Hm IHm Hy]; simpl; [constructor|].
    destruct (P y); [|done]. constructor; [done|].
    rewrite Forall_forall in *. intros z Hz. apply Hy.
    apply list_elem_of_In, filter_In in Hz as [Hz _]. by apply list_elem_of_In. }
  apply sorted_determined_on.
  - rewrite Forall_forall in *. intros x Hx. apply Hl.
    apply list_elem_of_In, filter_In in Hx as [Hx _].
    by apply list_elem_of_In, sort_elem in Hx.
  - by apply sort_ok.
  - by apply Hsub, sort_sorted_on.
  - by apply sort_sorted_on.
  - intros x Hx. rewrite Hswap, sort_ties_on by done.
    rewrite <- Hswap. symmetry. by apply sort_ties_on.
Qed.

End SortOn.

(** Sorting by the opposite comparator reverses the list, as long as
    the comparator ties no two different elements. *)
Lemma sort_opposite_on {A} (cmp : A -> A -> Z) (ok : A -> Prop) (l : list A) :
  (forall a b, ok a -> ok b -> 0 < cmp a b -> cmp b a <= 0) ->
  (forall a b c, ok a -> ok b -> ok c -> cmp a b <= 0 -> cmp b c <= 0 -> cmp a c <= 0) ->
  Forall ok l ->
  (forall a b, a ∈ l -> b ∈ l -> cmp a b <= 0 -> cmp b a <= 0 -> a = b) ->
  sort (fun a b => cmp b a) l = rev (sort cmp l).
Proof.
  intros Htotal Htrans Hl Hties.
  assert (Hrev : forall (R : A -> A -> Prop) m,
            StronglySorted R m -> StronglySorted (fun a b => R b a) (rev m)).
  { intros R m. induction 1 as [|x m Hm IHm Hx]; simpl; [constructor|].
    apply StronglySorted_app. split_and!; [|done|repeat constructor].
    intros a b Ha ->%list_elem_of_singleton.
    rewrite Forall_forall in Hx. apply Hx.
    apply list_elem_of_In. apply in_rev. by apply list_elem_of_In. }
  apply (StronglySorted_unique_strong (notAfter (fun a b => cmp b a))).
  - intros a b Ha Hb Hab Hba. unfold notAfter in *.
    apply Hties; [by apply sort_elem in Ha| |done|done].
    apply list_elem_of_In, in_rev, list_elem_of_In in Hb. by apply sort_elem in Hb.
  - apply (sort_sorted_on (fun a b => cmp b a) ok); [| |done].
    + intros a b Ha Hb. by apply Htotal.
    + intros a b c Ha Hb Hc Hab Hbc. by apply (Htrans c b a).
  - apply (Hrev (notAfter cmp)). by apply (sort_sorted_on cmp ok).
  - by rewrite <- Permutation_rev, !sort_perm.
Qed.


Section StringFacts.

Lemma compareUnits_eq a b : compareUnits a b = Eq <-> a = b.
Proof.
  revert b. induction a as [|x a IH]; intros [|y b]; simpl; try done.
  destruct (N.compare_spec x y) as [->| |]; [|split; [done|intros [=]; lia]..].
  rewrite IH. split; [by intros ->|by intros [=]].
Qed.

Lemma compareUnits_flip a b : compareUnits b a = CompOpp (compareUnits a b).
Proof.
  revert b. induction a as [|x a IH]; intros [|y b]; simpl; try done.
  rewrite (N.compare_antisym x y).
  destruct (N.compare x y); simpl; [apply IH|done|done].
Qed.

Lemma compareUnits_lt_trans a b c :
  compareUnits a b = Lt -> compareUnits b c = Lt -> compareUnits a c = Lt.
Proof.
  revert b c. induction a as [|x a IH]; intros [|y b] [|z c]; simpl; try done.
  destruct (N.compare_spec x y) as [->| |]; try done.
  - destruct (N.compare_spec y z) as [->| |]; try done. apply IH.
  - destruct (N.compare_spec y z) as [->| |]; try done.
    + intros _ _. destruct (N.compare_spec x z); [lia|done|lia].
    + intros _ _. destruct (N.compare_spec x z); [lia|done|lia].
Qed.

Lemma defaultCompare_total a b :
  0 < defaultCompare a b -> defaultCompare b a <= 0.
Proof.
  unfold defaultCompare. rewrite (compareUnits_flip a b).
  destruct (compareUnits a b); simpl; lia.
Qed.

Lemma defaultCompare_le a b :
  defaultCompare a b <= 0 <-> compareUnits a b <> Gt.
Proof. unfold defaultCompare. destruct (compareUnits a b); split; (done || lia). Qed.

Lemma defaultCompare_trans a b c :
  defaultCompare a b <= 0 -> defaultCompare b c <= 0 -> defaultCompare a c <= 0.
Proof.
  rewrite !defaultCompare_le.
  destruct (compareUnits a b) eqn:Hab; [|intros _|done].
  - apply compareUnits_eq in Hab as ->. auto.
  - destruct (compareUnits b c) eqn:Hbc; [|intros _|done].
    + apply compareUnits_eq in Hbc as ->. by rewrite Hab.
    + by rewrite (compareUnits_lt_trans a b c).
Qed.


(** [startsWith] and [includes] against their declarative readings. *)
Lemma startsWith_spec s q : startsWith s q = true <-> exists after, s = q ++ after.
Proof.
  revert s. induction q as [|c q IH]; intros s; simpl.
  { split; [intros _; by exists s|done]. }
  destruct s as [|d s]; simpl.
  { split; [done|by intros [? ?]]. }
  rewrite andb_true_iff, bool_decide_eq_true, IH. split.
  - intros [-> [after ->]]. by exists after.
  - intros [after [= -> ->]]. split; [done|by exists after].
Qed.

Lemma includes_spec s q : includes s q = true <-> isSubstring q s.
Proof.
  unfold isSubstring. induction s as [|d s IH]; cbn [includes].
  - rewrite orb_false_r, startsWith_spec. split.
    + intros [after ->]. by exists [], after.
    + intros [before [after Heq]]. symmetry in Heq.
      apply app_eq_nil in Heq as [-> Heq]. apply app_eq_nil in Heq as [-> ->].
      by exists [].
  - rewrite orb_true_iff, startsWith_spec, IH. split.
    + intros [[after ->]|[before [after ->]]].
      * by exists [], after.
      * by exists (d :: before), after.
    + intros [[|e before] [after Heq]].
      * left. by exists after.
      * right. injection Heq as -> ->. by exists before, after.
Qed.

Lemma includes_empty s : includes s [] = true.
Proof. apply includes_spec. by exists [], s. Qed.

End StringFacts.

(** ** The tag vocabulary *)

Section Vocabulary.
Import BlogList.

Lemma setAdd_elem x s y : y ∈ setAdd x s <-> y = x \/ y ∈ s.
Proof.
  unfold setAdd. case_bool_decide as Hx.
  - split; [auto|]. intros [->|]; done.
  - rewrite elem_of_app, list_elem_of_singleton. tauto.
Qed.

Lemma setAdd_NoDup x s : NoDup s -> NoDup (setAdd x s).
Proof.
  intros Hs. unfold setAdd. case_bool_decide as Hx; [done|].
  apply NoDup_app. split_and!; [done| |apply NoDup_singleton].
  intros y Hy ->%list_elem_of_singleton. done.
Qed.

Lemma addAll_elem ts acc y :
  y ∈ fold_left (fun tagSet tag => setAdd tag tagSet) ts acc <-> y ∈ acc \/ y ∈ ts.
Proof.
  revert acc. induction ts as [|t ts IH]; intros acc; simpl.
  - rewrite elem_of_nil. tauto.
  - rewrite IH, setAdd_elem, elem_of_cons. tauto.
Qed.

Lemma addAll_NoDup ts acc :
  NoDup acc -> NoDup (fold_left (fun tagSet tag => setAdd tag tagSet) ts acc).
Proof.
  revert acc. induction ts as [|t ts IH]; intros acc Hacc; simpl; [done|].
  by apply IH, setAdd_NoDup.
Qed.

Lemma collect_elem posts acc y :
  y ∈ fold_left addPostTags posts acc <-> y ∈ acc \/ taggedWith posts y.
Proof.
  unfold taggedWith.
  revert acc. induction posts as [|p posts IH]; intros acc; simpl.
  - split; [auto|]. intros [|(? & ? & []%elem_of_nil & _)]; done.
  - rewrite IH. unfold addPostTags at 1. destruct (tags (data p)) as [ts|] eqn:Hp.
    + rewrite addAll_elem. split.
      * intros [[|Hy]|(q & qs & Hq & Hqs & Hy)]; [by left| |].
        -- right. exists p, ts. by rewrite elem_of_cons; auto.
        -- right. exists q, qs. rewrite elem_of_cons; auto.
      * intros [|(q & qs & [->|Hq]%elem_of_cons & Hqs & Hy)]; [by auto| |].
        -- rewrite Hp in Hqs. injection Hqs as <-. auto.
        -- right. by exists q, qs.
    + split.
      * intros [|(q & qs & Hq & Hqs & Hy)]; [by left|].
        right. exists q, qs. rewrite elem_of_cons; auto.
      * intros [|(q & qs & [->|Hq]%elem_of_cons & Hqs & Hy)]; [by auto| |].
        -- by rewrite Hp in Hqs.
        -- right. by exists q, qs.
Qed.

Lemma collect_NoDup posts acc : NoDup acc -> NoDup (fold_left addPostTags posts acc).
Proof.
  revert acc. induction posts as [|p posts IH]; intros acc Hacc; simpl; [done|].
  apply IH. unfold addPostTags. destruct (tags (data p)); [by apply addAll_NoDup|done].
Qed.

Lemma collect_skip before post after :
  tags (data post) = None \/ tags (data post) = Some [] ->
  collectTags (before ++ post :: after) = collectTags (before ++ after).
Proof.
  intros Hp. unfold collectTags. rewrite !fold_left_app. simpl.
  by destruct Hp as [Hp|Hp]; unfold addPostTags at 2; rewrite Hp.
Qed.

Lemma codePoints_plain s : hasSurrogatePair s = false -> codePoints s = s.
Proof.
  induction s as [|h t IH]; [done|].
  destruct t as [|l s']; [done|].
  cbn [hasSurrogatePair codePoints].
  intros [Hpair Ht]%orb_false_iff. rewrite Hpair. f_equal. by apply IH.
Qed.

Lemma StronglySorted_strict {A} (R : A -> A -> Prop) l :
  StronglySorted R l -> NoDup l -> StronglySorted (fun a b => R a b /\ a <> b) l.
Proof.
  induction 1 as [|x l Hl IH Hx]; intros Hnd; [constructor|].
  apply NoDup_cons in Hnd as [Hx' Hnd]. constructor; [by apply IH|].
  rewrite Forall_forall in *. intros y Hy. split; [by apply Hx|].
  intros ->. by apply Hx'.
Qed.

Lemma StronglySorted_restrict {A} (R S : A -> A -> Prop) l :
  (forall a b, a ∈ l -> b ∈ l -> R a b -> S a b) ->
  StronglySorted R l -> StronglySorted S l.
Proof.
  intros HRS Hl. induction Hl as [|x l Hl IH Hx]; constructor.
  - apply IH. intros a b Ha Hb. apply HRS; by apply elem_of_cons; right.
  - rewrite Forall_forall in *. intros y Hy.
    apply HRS; [by left|by right|by apply Hx].
Qed.

(** C3 (as amended). The vocabulary holds exactly the tags listed by some
    post, has no duplicates and is strictly ascending in the
    lexicographic order of UTF-16 code units, which is the order of code
    points as long as no tag contains a surrogate pair; the empty
    collection gives the empty vocabulary, and a post without tags, or
    with none, can be dropped without changing it. *)
Theorem allTags_vocabulary (posts : list Post) :
  (forall t, t ∈ allTags posts <-> taggedWith posts t)
  /\ NoDup (allTags posts)
  /\ StronglySorted (fun a b => compareUnits a b = Lt) (allTags posts)
  /\ ((forall t, t ∈ allTags posts -> hasSurrogatePair t = false) ->
      StronglySorted (fun a b => compareCodePoints a b = Lt) (allTags posts))
  /\ allTags [] = []
  /\ (forall before post after,
        tags (data post) = None \/ tags (data post) = Some [] ->
        allTags (before ++ post :: after) = allTags (before ++ after)).
Proof.
  assert (Helem : forall t, t ∈ allTags posts <-> taggedWith posts t).
  { intros t. unfold allTags, collectTags. rewrite sort_elem, collect_elem.
    rewrite elem_of_nil. tauto. }
  assert (Hnd : NoDup (allTags posts)).
  { unfold allTags. rewrite sort_perm. apply collect_NoDup, NoDup_nil_2. }
  assert (Hlt : StronglySorted (fun a b => compareUnits a b = Lt) (allTags posts)).
  { eapply StronglySorted_weaken;
      [|apply StronglySorted_strict;
        [apply (sort_sorted defaultCompare defaultCompare_total defaultCompare_trans)
        |exact Hnd]].
    intros a b [Hab Hne]. apply defaultCompare_le in Hab.
    destruct (compareUnits a b) eqn:Hc; [|done|done].
    by apply compareUnits_eq in Hc. }
  split_and!; try done.
  - intros Hplain. eapply StronglySorted_restrict; [|exact Hlt].
    intros a b Ha Hb. unfold compareCodePoints.
    by rewrite !codePoints_plain by auto.
  - intros before post after Hp. unfold allTags. by rewrite collect_skip.
Qed.

Lemma allTags_vocabulary_witness :
  StronglySorted (fun a b => compareCodePoints a b = Lt)
    (allTags [mkPost "Alpha" "" 1672531200000 (Some [lit "x"]);
              mkPost "Beta" "" 1704067200000 (Some [lit "y"; lit "x"]);
              mkPost "Gamma" "" 0 None])
  /\ allTags [mkPost "Gamma" "" 0 None; mkPost "Alpha" "" 1 (Some [lit "x"])]
     = allTags [mkPost "Alpha" "" 1 (Some [lit "x"])].
Proof.
  split.
  - apply (allTags_vocabulary
             [mkPost "Alpha" "" 1672531200000 (Some [lit "x"]);
              mkPost "Beta" "" 1704067200000 (Some [lit "y"; lit "x"]);
              mkPost "Gamma" "" 0 None]).
    intros t Ht. vm_compute in Ht.
    apply elem_of_cons in Ht as [->|Ht]; [reflexivity|].
    apply elem_of_cons in Ht as [->|Ht]; [reflexivity|].
    by apply elem_of_nil in Ht.
  - destruct (allTags_vocabulary []) as (_ & _ & _ & _ & _ & Hskip).
    apply (Hskip [] (mkPost "Gamma" "" 0 None)
             [mkPost "Alpha" "" 1 (Some [lit "x"])]).
    left. reflexivity.
Defined.

(** C3 (as stated) fails when a tag has a supplementary character: the
    tag U+FF5E comes before the tag U+1F600 by code points, and after it
    in the vocabulary, whose order goes by the code units D83D DE00. *)
Lemma allTags_not_in_code_point_order :
  allTags supplementaryPosts = [[0xD83D%N; 0xDE00%N]; [0xFF5E%N]]
  /\ compareCodePoints [0xFF5E%N] [0xD83D%N; 0xDE00%N] = Lt
  /\ ~ StronglySorted (fun a b => compareCodePoints a b <> Gt)
        (allTags supplementaryPosts).
Proof.
  split_and!; [by vm_compute|by vm_compute|].
  intros Hs. replace (allTags supplementaryPosts)
    with [[0xD83D%N; 0xDE00%N]; [0xFF5E%N]] in Hs by (by vm_compute).
  apply StronglySorted_inv in Hs as [_ Hhd].
  apply Forall_inv in Hhd. by apply Hhd.
Qed.

End Vocabulary.

(** ** The filter *)

Section Filter.
Import BlogList.
Context `{Intl}.

(** C4. The search test holds exactly when the lower-cased query, taken
    as it is typed, is a substring of the lower-cased title or of the
    lower-cased description; the empty query lets every post through. *)
Theorem matchesSearch_spec :
  lowerOfEmpty ->
  forall (q : jsstring) (post : Post),
    (matchesSearch q post = true <->
       isSubstring (toLowerCase q) (toLowerCase (title (data post)))
       \/ isSubstring (toLowerCase q) (toLowerCase (description (data post))))
    /\ matchesSearch (lit "") post = true.
Proof.
  intros Hempty q post. unfold matchesSearch. split.
  - by rewrite orb_true_iff, !includes_spec.
  - change (lit "") with (@nil N). rewrite Hempty. by rewrite includes_empty.
Qed.

(** C5. A post is shown exactly when it is one of the posts received
    and passes both the search test and the tag test; the posts shown
    are the posts that pass, each as often as it was received. *)
Theorem results_membership (posts : list Post) (st : QueryState) (post : Post) :
  (post ∈ results posts st <->
     post ∈ posts
     /\ matchesSearch (search st) post = true
     /\ matchesTags (selectedTags st) post = true)
  /\ results posts st ≡ₚ List.filter (keep (search st) (selectedTags st)) posts
  /\ Forall (fun p => keep (search st) (selectedTags st) p = true) (results posts st)
  /\ (forall p, p ∈ posts -> p ∉ results posts st ->
        keep (search st) (selectedTags st) p = false).
Proof.
  assert (Hin : forall p, p ∈ results posts st <->
            p ∈ posts /\ keep (search st) (selectedTags st) p = true).
  { intros p. unfold results, filteredPosts.
    by rewrite sort_elem, !list_elem_of_In, filter_In. }
  split_and!.
  - rewrite Hin. unfold keep. rewrite andb_true_iff. tauto.
  - apply sort_perm.
  - apply Forall_forall. intros p Hp. by apply Hin in Hp as [_ Hp].
  - intros p Hp Hout. apply not_true_is_false. intros Hk. apply Hout, Hin. done.
Qed.

End Filter.

Lemma asciiIntl_lowerOfEmpty : @lowerOfEmpty asciiIntl.
Proof. reflexivity. Qed.

Lemma matchesSearch_spec_witness :
  (@BlogList.matchesSearch asciiIntl (lit "ALP") (mkPost "Alpha" "first post" 0 None)
     = true <->
   isSubstring (@toLowerCase asciiIntl (lit "ALP"))
     (@toLowerCase asciiIntl (title (data (mkPost "Alpha" "first post" 0 None))))
   \/ isSubstring (@toLowerCase asciiIntl (lit "ALP"))
        (@toLowerCase asciiIntl
           (description (data (mkPost "Alpha" "first post" 0 None)))))
  /\ @BlogList.matchesSearch asciiIntl (lit "") (mkPost "Alpha" "first post" 0 None)
     = true.
Proof.
  apply (@matchesSearch_spec asciiIntl).
  reflexivity.
Defined.

(** ** The order of the results *)

Section Order.
Import BlogList.
Context `{Intl}.

Ltac order_cases :=
  unfold comparator, sameKey, sortsByDate;
  repeat case_bool_decide; simpl;
  repeat match goal with
         | E : lit _ = lit _ |- _ => try (by vm_compute in E); clear E
         | E : lit _ <> lit _ |- _ => try (by exfalso; apply E; vm_compute); clear E
         end.

Lemma comparator_newest a b :
  comparator (lit "newest") a b
  = minus (getTime (pubDate (data b))) (getTime (pubDate (data a))).
Proof. by order_cases. Qed.

Lemma comparator_oldest a b :
  comparator (lit "oldest") a b
  = minus (getTime (pubDate (data a))) (getTime (pubDate (data b))).
Proof. by order_cases. Qed.

Lemma comparator_az a b :
  comparator (lit "a-z") a b = Num (localeCompare (title (data a)) (title (data b))).
Proof. by order_cases. Qed.

Lemma comparator_za a b :
  comparator (lit "z-a") a b = Num (localeCompare (title (data b)) (title (data a))).
Proof. by order_cases. Qed.

(** The [else] branch of the comparator takes every other value. *)
Lemma comparator_else (value : jsstring) a b :
  value <> lit "newest" -> value <> lit "oldest" -> value <> lit "a-z" ->
  comparator value a b = Num (localeCompare (title (data b)) (title (data a))).
Proof. intros. unfold comparator. by repeat case_bool_decide. Qed.

Lemma sortsByDate_newest : sortsByDate (lit "newest") = true.
Proof. by vm_compute. Qed.

Lemma sortsByDate_oldest : sortsByDate (lit "oldest") = true.
Proof. by vm_compute. Qed.

Lemma datedFor_dates sortOrder (l : list Post) :
  Forall validDate l -> Forall (datedFor sortOrder) l.
Proof. intros Hl. eapply Forall_impl; [exact Hl|]. by intros post Hv _. Qed.

Lemma datedFor_titles sortOrder (l : list Post) :
  sortsByDate sortOrder = false -> Forall (datedFor sortOrder) l.
Proof.
  intros Hno. apply Forall_forall. intros post _ Hyes. congruence.
Qed.

Lemma localeCompare_pos_flip a b :
  consistentCompare -> 0 < localeCompare a b -> localeCompare b a < 0.
Proof.
  intros Hc Hab. pose proof (compare_flip Hc a b) as Hflip.
  rewrite (Z.sgn_pos (localeCompare a b)) in Hflip by done.
  by apply Z.sgn_neg_iff.
Qed.

Lemma localeCompare_nonpos_flip a b :
  consistentCompare -> localeCompare b a <= 0 -> 0 <= localeCompare a b.
Proof.
  intros Hc Hba. destruct (Z.lt_ge_cases (localeCompare a b) 0) as [Hlt|]; [|done].
  pose proof (compare_flip Hc a b) as Hflip.
  rewrite (Z.sgn_neg (localeCompare a b)) in Hflip by done.
  apply Z.sgn_pos_iff in Hflip. lia.
Qed.



(** On posts that have a date where the order goes by date, what [sort]
    reads from the comparator is total, transitive and reflexive. *)
Lemma datedFor_newest post : datedFor (lit "newest") post -> validDate post.
Proof. intros Hd. apply Hd, sortsByDate_newest. Qed.

Lemma datedFor_oldest post : datedFor (lit "oldest") post -> validDate post.
Proof. intros Hd. apply Hd, sortsByDate_oldest. Qed.


Lemma comparator_total_on sortOrder a b :
  consistentCompare -> datedFor sortOrder a -> datedFor sortOrder b ->
  0 < compareElements (comparator sortOrder) a b ->
  compareElements (comparator sortOrder) b a <= 0.
Proof.
  intros Hc Ha Hb. unfold compareElements, comparator.
  repeat case_bool_decide; subst; simpl.
  - apply datedFor_newest in Ha, Hb. unfold validDate in *.
    destruct (pubDate (data a)), (pubDate (data b)); simpl; try congruence; lia.
  - apply datedFor_oldest in Ha, Hb. unfold validDate in *.
    destruct (pubDate (data a)), (pubDate (data b)); simpl; try congruence; lia.
  - intros Hab. by apply Z.lt_le_incl, localeCompare_pos_flip.
  - intros Hab. by apply Z.lt_le_incl, localeCompare_pos_flip.
Qed.

Lemma comparator_trans_on sortOrder a b c :
  consistentCompare ->
  datedFor sortOrder a -> datedFor sortOrder b -> datedFor sortOrder c ->
  compareElements (comparator sortOrder) a b <= 0 ->
  compareElements (comparator sortOrder) b c <= 0 ->
  compareElements (comparator sortOrder) a c <= 0.
Proof.
  intros Hc Ha Hb Hd. unfold compareElements, comparator.
  repeat case_bool_decide; subst; simpl.
  - apply datedFor_newest in Ha, Hb, Hd. unfold validDate in *.
    destruct (pubDate (data a)), (pubDate (data b)), (pubDate (data c));
      simpl; try congruence; lia.
  - apply datedFor_oldest in Ha, Hb, Hd. unfold validDate in *.
    destruct (pubDate (data a)), (pubDate (data b)), (pubDate (data c));
      simpl; try congruence; lia.
  - apply (compare_trans Hc).
  - intros Hab Hbc. by apply (compare_trans Hc _ (title (data b))).
Qed.

Lemma comparator_refl sortOrder a :
  consistentCompare -> compareElements (comparator sortOrder) a a <= 0.
Proof.
  intros Hc. unfold compareElements, comparator.
  repeat case_bool_decide; simpl; rewrite ?(compare_refl Hc); try lia.
  - destruct (pubDate (data a)); simpl; lia.
  - destruct (pubDate (data a)); simpl; lia.
Qed.

Lemma sort_by_order_sorted sortOrder (l : list Post) :
  consistentCompare -> Forall (datedFor sortOrder) l ->
  StronglySorted (notAfter (compareElements (comparator sortOrder)))
    (sort (compareElements (comparator sortOrder)) l).
Proof.
  intros Hc Hl. apply (sort_sorted_on _ (datedFor sortOrder)); [| |done].
  - intros a b. by apply comparator_total_on.
  - intros a b c. by apply comparator_trans_on.
Qed.

Lemma sort_by_date_sorted (l : list Post) :
  Forall validDate l ->
  StronglySorted publishedNotBefore
    (sort (compareElements (comparator (lit "newest"))) l)
  /\ StronglySorted publishedNotAfter
       (sort (compareElements (comparator (lit "oldest"))) l).
Proof.
  intros Hl. split.
  - eapply StronglySorted_restrict;
      [|apply (sort_sorted_on (compareElements (comparator (lit "newest"))) validDate);
        [| |done]].
    + intros a b Ha Hb. apply sort_elem in Ha, Hb.
      rewrite Forall_forall in Hl. pose proof (Hl a Ha) as Hva. pose proof (Hl b Hb) as Hvb.
      unfold notAfter, compareElements, publishedNotBefore, validDate in *.
      rewrite comparator_newest.
      destruct (pubDate (data a)), (pubDate (data b)); simpl; try congruence; try done; lia.
    + intros a b Ha Hb. unfold compareElements, validDate in *.
      rewrite !comparator_newest.
      destruct (pubDate (data a)), (pubDate (data b)); simpl; try congruence; lia.
    + intros a b c Ha Hb Hd. unfold compareElements, validDate in *.
      rewrite !comparator_newest.
      destruct (pubDate (data a)), (pubDate (data b)), (pubDate (data c));
        simpl; try congruence; lia.
  - eapply StronglySorted_restrict;
      [|apply (sort_sorted_on (compareElements (comparator (lit "oldest"))) validDate);
        [| |done]].
    + intros a b Ha Hb. apply sort_elem in Ha, Hb.
      rewrite Forall_forall in Hl. pose proof (Hl a Ha) as Hva. pose proof (Hl b Hb) as Hvb.
      unfold notAfter, compareElements, publishedNotAfter, validDate in *.
      rewrite comparator_oldest.
      destruct (pubDate (data a)), (pubDate (data b)); simpl; try congruence; try done; lia.
    + intros a b Ha Hb. unfold compareElements, validDate in *.
      rewrite !comparator_oldest.
      destruct (pubDate (data a)), (pubDate (data b)); simpl; try congruence; lia.
    + intros a b c Ha Hb Hd. unfold compareElements, validDate in *.
      rewrite !comparator_oldest.
      destruct (pubDate (data a)), (pubDate (data b)), (pubDate (data c));
        simpl; try congruence; lia.
Qed.

Lemma sort_by_title_sorted (l : list Post) :
  consistentCompare ->
  StronglySorted (fun a b => localeCompare (title (data a)) (title (data b)) <= 0)
    (sort (compareElements (comparator (lit "a-z"))) l)
  /\ StronglySorted (fun a b => localeCompare (title (data a)) (title (data b)) >= 0)
       (sort (compareElements (comparator (lit "z-a"))) l).
Proof.
  intros Hc. split;
    (eapply StronglySorted_weaken;
     [|apply sort_by_order_sorted; [done|by apply datedFor_titles; vm_compute]]);
    intros a b; unfold notAfter, compareElements.
  - by rewrite comparator_az.
  - rewrite comparator_za. intros Hba. by apply Z.le_ge, localeCompare_nonpos_flip.
Qed.

(** C6 (as amended). The posts shown are the posts that pass the filter,
    in the order the sort order names, every earlier post against every
    later one: titles ascending and titles descending in the locale's
    comparison, and, when every post that passes the filter has a valid
    publication date, newest first and oldest first. Both copies sort
    alike. *)
Theorem filteredPosts_sorted :
  consistentCompare ->
  forall (posts : list Post) (search : jsstring) (selectedTags : list jsstring),
    (forall sortOrder,
        filteredPosts posts search selectedTags sortOrder
        ≡ₚ List.filter (keep search selectedTags) posts
        /\ Copy.filteredPosts posts search selectedTags sortOrder
           ≡ₚ List.filter (Copy.keep search selectedTags) posts)
    /\ (Forall validDate (List.filter (keep search selectedTags) posts) ->
        StronglySorted publishedNotBefore
          (filteredPosts posts search selectedTags (lit "newest"))
        /\ StronglySorted publishedNotAfter
             (filteredPosts posts search selectedTags (lit "oldest")))
    /\ StronglySorted
         (fun a b => localeCompare (title (data a)) (title (data b)) <= 0)
         (filteredPosts posts search selectedTags (lit "a-z"))
    /\ StronglySorted
         (fun a b => localeCompare (title (data a)) (title (data b)) >= 0)
         (filteredPosts posts search selectedTags (lit "z-a"))
    /\ (Forall validDate (List.filter (Copy.keep search selectedTags) posts) ->
        StronglySorted publishedNotBefore
          (Copy.filteredPosts posts search selectedTags (lit "newest"))
        /\ StronglySorted publishedNotAfter
             (Copy.filteredPosts posts search selectedTags (lit "oldest")))
    /\ StronglySorted
         (fun a b => localeCompare (title (data a)) (title (data b)) <= 0)
         (Copy.filteredPosts posts search selectedTags (lit "a-z"))
    /\ StronglySorted
         (fun a b => localeCompare (title (data a)) (title (data b)) >= 0)
         (Copy.filteredPosts posts search selectedTags (lit "z-a"))
    /\ (forall (sortOrder : jsstring) (i j : nat) (a b : Post),
          (i < j)%nat ->
          (Forall (datedFor sortOrder) (List.filter (keep search selectedTags) posts) ->
           filteredPosts posts search selectedTags sortOrder !! i = Some a ->
           filteredPosts posts search selectedTags sortOrder !! j = Some b ->
           compareElements (comparator sortOrder) a b <= 0)
          /\ (Forall (datedFor sortOrder)
                (List.filter (Copy.keep search selectedTags) posts) ->
              Copy.filteredPosts posts search selectedTags sortOrder !! i = Some a ->
              Copy.filteredPosts posts search selectedTags sortOrder !! j = Some b ->
              compareElements (comparator sortOrder) a b <= 0)).
Proof.
  intros Hc posts search selectedTags.
  unfold filteredPosts, Copy.filteredPosts. split_and!.
  - intros sortOrder. split; apply sort_perm.
  - apply sort_by_date_sorted.
  - by apply sort_by_title_sorted.
  - by apply sort_by_title_sorted.
  - apply sort_by_date_sorted.
  - by apply sort_by_title_sorted.
  - by apply sort_by_title_sorted.
  - intros sortOrder i j a b Hij.
    split; intros Hdated;
      apply (StronglySorted_pairs (notAfter (compareElements (comparator sortOrder))));
      try done; by apply sort_by_order_sorted.
Qed.

End Order.

Lemma asciiIntl_consistent : @consistentCompare asciiIntl.
Proof.
  split; simpl.
  - intros a. unfold defaultCompare.
    by rewrite (proj2 (compareUnits_eq a a) eq_refl).
  - intros a b. unfold defaultCompare. rewrite (compareUnits_flip a b).
    by destruct (compareUnits a b).
  - apply defaultCompare_trans.
Qed.

Lemma validDate_filter (P : Post -> bool) (l : list Post) :
  Forall validDate l -> Forall validDate (List.filter P l).
Proof.
  rewrite !Forall_forall. intros Hl post Hpost. apply Hl.
  apply list_elem_of_In, filter_In in Hpost as [Hpost _]. by apply list_elem_of_In.
Qed.

Lemma scenarioPosts_dated : Forall validDate scenarioPosts.
Proof. repeat constructor; discriminate. Qed.

Lemma filteredPosts_sorted_witness :
  (StronglySorted publishedNotBefore
     (@BlogList.filteredPosts asciiIntl scenarioPosts (lit "") [] (lit "newest"))
   /\ StronglySorted publishedNotAfter
        (@BlogList.filteredPosts asciiIntl scenarioPosts (lit "") [] (lit "oldest")))
  /\ StronglySorted
       (fun a b => @localeCompare asciiIntl (title (data a)) (title (data b)) >= 0)
       (@Copy.filteredPosts asciiIntl scenarioPosts (lit "") [] (lit "z-a")).
Proof.
  destruct (@filteredPosts_sorted asciiIntl asciiIntl_consistent
              scenarioPosts (lit "") [])
    as (_ & Hdates & _ & _ & _ & _ & Hza & _).
  split; [|done]. apply Hdates. apply validDate_filter, scenarioPosts_dated.
Defined.

(** C6 (as stated) fails when a post has an Invalid Date: the comparator
    answers NaN against it, which the sort reads as a tie, and the post
    dated 5 stays in front of the post dated 7 under [newest]. *)
Lemma filteredPosts_newest_with_invalid_date :
  @BlogList.filteredPosts asciiIntl undatedAmongPosts (lit "") [] (lit "newest")
  = [mkPost "A" "" 5 None; undated "Bad"; mkPost "C" "" 7 None; mkPost "D" "" 6 None]
  /\ compareElements (@BlogList.comparator asciiIntl (lit "newest"))
       (mkPost "A" "" 5 None) (mkPost "C" "" 7 None) = 2
  /\ ~ StronglySorted
        (notAfter (compareElements (@BlogList.comparator asciiIntl (lit "newest"))))
        (@BlogList.filteredPosts asciiIntl undatedAmongPosts (lit "") [] (lit "newest"))
  /\ ~ StronglySorted publishedNotBefore
        (@BlogList.filteredPosts asciiIntl undatedAmongPosts (lit "") [] (lit "newest")).
Proof.
  assert (Hshown :
    @BlogList.filteredPosts asciiIntl undatedAmongPosts (lit "") [] (lit "newest")
    = [mkPost "A" "" 5 None; undated "Bad"; mkPost "C" "" 7 None; mkPost "D" "" 6 None])
    by (by vm_compute).
  split_and!; [done|by vm_compute| |]; rewrite Hshown; intros Hs;
    apply StronglySorted_inv in Hs as [_ Hhead].
  - apply Forall_inv_tail, Forall_inv in Hhead.
    unfold notAfter in Hhead. vm_compute in Hhead. by apply Hhead.
  - apply Forall_inv in Hhead. by vm_compute in Hhead.
Qed.

(** ** Engines *)

Section Engines.
Import BlogList.




Context `{Intl}.






End Engines.



(** ** The two tag tests *)

Section TagTests.
Import BlogList.

Lemma no_selection (selectedTags : list jsstring) :
  bool_decide (length selectedTags = 0%nat) = true <-> selectedTags = [].
Proof. rewrite bool_decide_eq_true. apply length_zero_iff_nil. Qed.

(** [every]: all selected tags are tags of the post. *)
Lemma matchesTags_every selectedTags post :
  matchesTags selectedTags post = true <->
  selectedTags = [] \/ forall tag, tag ∈ selectedTags -> postHasTag post tag = true.
Proof.
  unfold matchesTags. rewrite orb_true_iff, no_selection, forallb_forall.
  by setoid_rewrite list_elem_of_In.
Qed.

(** [some]: one selected tag is a tag of the post. *)
Lemma matchesTags_some selectedTags post :
  Copy.matchesTags selectedTags post = true <->
  selectedTags = [] \/ exists tag, tag ∈ selectedTags /\ postHasTag post tag = true.
Proof.
  unfold Copy.matchesTags. rewrite orb_true_iff, no_selection, existsb_exists.
  by setoid_rewrite list_elem_of_In.
Qed.

Lemma postHasTag_spec post tag :
  postHasTag post tag = true <-> exists ts, tags (data post) = Some ts /\ tag ∈ ts.
Proof.
  unfold postHasTag, arrayIncludes. destruct (tags (data post)) as [ts|].
  - rewrite bool_decide_eq_true. split; [by exists ts|by intros (? & [= <-] & ?)].
  - split; [done|by intros (? & ? & _)].
Qed.

(** Both tests look at the selection as a set. *)
Lemma matchesTags_same_members s1 s2 post :
  (forall tag, tag ∈ s1 <-> tag ∈ s2) ->
  matchesTags s1 post = matchesTags s2 post
  /\ Copy.matchesTags s1 post = Copy.matchesTags s2 post.
Proof.
  intros Hsame.
  assert (Hnil : s1 = [] <-> s2 = []).
  { destruct s1 as [|x s1], s2 as [|y s2]; try done.
    - split; [intros _|done]. exfalso. apply (not_elem_of_nil y), Hsame. left.
    - split; [done|intros _]. exfalso. apply (not_elem_of_nil x), Hsame. left. }
  split; apply eq_true_iff_eq.
  - rewrite !matchesTags_every, Hnil. by setoid_rewrite Hsame.
  - rewrite !matchesTags_some, Hnil. by setoid_rewrite Hsame.
Qed.

(** C2. The tag test of [BlogList.tsx] asks for every selected tag, the
    one of the copy for some selected tag, and they differ: under a
    selection of two tags a post with one of them fails the first and
    passes the second, so neither the two tests nor the two filters are
    the same function. *)
Theorem tag_tests_disagree :
  (exists post selectedTags,
      selectedTags <> []
      /\ matchesTags selectedTags post = false
      /\ Copy.matchesTags selectedTags post = true)
  /\ matchesTags <> Copy.matchesTags
  /\ (forall I : Intl, @keep I <> @Copy.keep I)
  /\ (forall I : Intl, @filteredPosts I <> @Copy.filteredPosts I).
Proof.
  assert (Hex : matchesTags selectionXY postTaggedX = false
                /\ Copy.matchesTags selectionXY postTaggedX = true).
  { by vm_compute. }
  destruct Hex as [Hevery Hsome].
  assert (Hsearch : forall I : Intl,
            @matchesSearch I (title (data postTaggedX)) postTaggedX = true).
  { intros I. unfold matchesSearch. apply orb_true_iff. left.
    apply includes_spec. exists [], []. by rewrite app_nil_r. }
  split_and!.
  - exists postTaggedX, selectionXY. by split_and!.
  - intros Heq. rewrite Heq, Hsome in Hevery. done.
  - intros I Heq.
    assert (Hk : @keep I (title (data postTaggedX)) selectionXY postTaggedX
                 = @Copy.keep I (title (data postTaggedX)) selectionXY postTaggedX)
      by (by rewrite Heq).
    unfold keep, Copy.keep in Hk. by rewrite Hsearch, Hevery, Hsome in Hk.
  - intros I Heq.
    assert (Hf : @filteredPosts I [postTaggedX] (title (data postTaggedX))
                   selectionXY (lit "newest")
                 = @Copy.filteredPosts I [postTaggedX] (title (data postTaggedX))
                     selectionXY (lit "newest"))
      by (by rewrite Heq).
    unfold filteredPosts, Copy.filteredPosts in Hf. cbn [List.filter] in Hf.
    unfold keep, Copy.keep in Hf. by rewrite Hsearch, Hevery, Hsome in Hf.
Qed.

(** C8. A post without a [tags] field passes the tag test exactly under
    the empty selection, in [BlogList.tsx] and in the copy alike. *)
Theorem matchesTags_without_tags (post : Post) (selectedTags : list jsstring) :
  tags (data post) = None ->
  (matchesTags selectedTags post = true <-> selectedTags = [])
  /\ (Copy.matchesTags selectedTags post = true <-> selectedTags = []).
Proof.
  intros Hnone.
  assert (Hno : forall tag, postHasTag post tag = false).
  { intros tag. unfold postHasTag. by rewrite Hnone. }
  rewrite matchesTags_every, matchesTags_some. split; split; auto.
  - intros [Hnil|Hall]; [done|].
    destruct selectedTags as [|tag rest]; [done|].
    specialize (Hall tag ltac:(left)). by rewrite Hno in Hall.
  - intros [Hnil|(tag & _ & Htag)]; [done|]. by rewrite Hno in Htag.
Qed.

Lemma matchesTags_without_tags_witness :
  (matchesTags [lit "x"] (mkPost "Gamma" "" 0 None) = true <-> [lit "x"] = [])
  /\ (Copy.matchesTags [lit "x"] (mkPost "Gamma" "" 0 None) = true
      <-> [lit "x"] = []).
Proof.
  apply (matchesTags_without_tags (mkPost "Gamma" "" 0 None) [lit "x"]).
  reflexivity.
Defined.

End TagTests.

(** ** The query state and its handlers *)

Section Handlers.
Import BlogList.

Lemma toggleTag_selected tag st :
  selectedTags (toggleTag tag st) =
    if arrayIncludes (selectedTags st) tag
    then List.filter (fun t => negb (bool_decide (t = tag))) (selectedTags st)
    else selectedTags st ++ [tag].
Proof. reflexivity. Qed.

Lemma elem_of_without tag (l : list jsstring) t :
  t ∈ List.filter (fun t => negb (bool_decide (t = tag))) l <-> t <> tag /\ t ∈ l.
Proof.
  rewrite !list_elem_of_In, filter_In, negb_true_iff, bool_decide_eq_false. tauto.
Qed.

Lemma without_absent tag (l : list jsstring) :
  tag ∉ l -> List.filter (fun t => negb (bool_decide (t = tag))) l = l.
Proof.
  induction l as [|x l IH]; [done|]. intros Hx. apply not_elem_of_cons in Hx as [Hne Hx].
  simpl. rewrite bool_decide_eq_false_2 by done. simpl. by rewrite IH.
Qed.

Lemma toggleTag_present tag st :
  tag ∈ selectedTags st ->
  selectedTags (toggleTag tag st)
  = List.filter (fun t => negb (bool_decide (t = tag))) (selectedTags st).
Proof.
  intros Hin. rewrite toggleTag_selected. unfold arrayIncludes.
  by rewrite bool_decide_eq_true_2.
Qed.

Lemma toggleTag_absent tag st :
  tag ∉ selectedTags st -> selectedTags (toggleTag tag st) = selectedTags st ++ [tag].
Proof.
  intros Hout. rewrite toggleTag_selected. unfold arrayIncludes.
  by rewrite bool_decide_eq_false_2.
Qed.

Lemma toggleTag_elem tag st t :
  t ∈ selectedTags (toggleTag tag st) <->
  (t = tag /\ tag ∉ selectedTags st) \/ (t <> tag /\ t ∈ selectedTags st).
Proof.
  destruct (decide (tag ∈ selectedTags st)) as [Hin|Hout].
  - rewrite toggleTag_present, elem_of_without by done. tauto.
  - rewrite toggleTag_absent, elem_of_app, list_elem_of_singleton by done.
    destruct (decide (t = tag)) as [->|]; tauto.
Qed.

Lemma toggleTag_twice_elem tag st t :
  t ∈ selectedTags (toggleTag tag (toggleTag tag st)) <-> t ∈ selectedTags st.
Proof.
  rewrite !toggleTag_elem.
  destruct (decide (t = tag)) as [->|]; [|tauto].
  destruct (decide (tag ∈ selectedTags st)); tauto.
Qed.

Lemma toggleTag_NoDup tag st :
  NoDup (selectedTags st) -> NoDup (selectedTags (toggleTag tag st)).
Proof.
  intros Hnd. destruct (decide (tag ∈ selectedTags st)) as [Hin|Hout].
  - rewrite toggleTag_present by done.
    by apply NoDup_ListNoDup, List.NoDup_filter, NoDup_ListNoDup.
  - rewrite toggleTag_absent by done. apply NoDup_app. split_and!; [done| |apply NoDup_singleton].
    by intros t Ht ->%list_elem_of_singleton.
Qed.

Lemma toggleTag_other_cells tag st :
  search (toggleTag tag st) = search st /\ sortOrder (toggleTag tag st) = sortOrder st.
Proof. done. Qed.

Lemma results_same_members `{Intl} posts st st' :
  search st' = search st -> sortOrder st' = sortOrder st ->
  (forall t, t ∈ selectedTags st' <-> t ∈ selectedTags st) ->
  results posts st' = results posts st /\ Copy.results posts st' = Copy.results posts st.
Proof.
  intros Hs Ho Hsame.
  unfold results, Copy.results, filteredPosts, Copy.filteredPosts.
  rewrite Hs, Ho. split; f_equal; apply List.filter_ext; intros p; unfold keep, Copy.keep;
    f_equal; by apply matchesTags_same_members.
Qed.

(** C7. Clicking a tag twice gives back the selection, as the set it
    is, and the posts shown; when the tag was not selected the whole
    state is as before, and a selection without duplicates comes back as
    a permutation of itself. One click selects the tag when it was not
    selected, unselects it when it was, and leaves every other tag, the
    search text and the sort order as they are. *)
Theorem toggleTag_twice `{Intl} (tag : jsstring) (st : QueryState) (posts : list Post) :
  (list_to_set (selectedTags (toggleTag tag (toggleTag tag st)))
   =@{gset (list N)} list_to_set (selectedTags st))
  /\ results posts (toggleTag tag (toggleTag tag st)) = results posts st
  /\ Copy.results posts (toggleTag tag (toggleTag tag st)) = Copy.results posts st
  /\ (tag ∉ selectedTags st -> toggleTag tag (toggleTag tag st) = st)
  /\ (NoDup (selectedTags st) ->
      selectedTags (toggleTag tag (toggleTag tag st)) ≡ₚ selectedTags st)
  /\ (tag ∈ selectedTags (toggleTag tag st) <-> tag ∉ selectedTags st)
  /\ (forall t, t <> tag ->
        (t ∈ selectedTags (toggleTag tag st) <-> t ∈ selectedTags st))
  /\ List.filter (fun t => negb (bool_decide (t = tag))) (selectedTags (toggleTag tag st))
     = List.filter (fun t => negb (bool_decide (t = tag))) (selectedTags st)
  /\ search (toggleTag tag st) = search st
  /\ sortOrder (toggleTag tag st) = sortOrder st.
Proof.
  split_and!; try done.
  - apply set_eq. intros t. rewrite !elem_of_list_to_set. apply toggleTag_twice_elem.
  - apply results_same_members; [done|done|]. intros t. apply toggleTag_twice_elem.
  - apply results_same_members; [done|done|]. intros t. apply toggleTag_twice_elem.
  - intros Hout. destruct st as [s sel o]. simpl in Hout.
    assert (Hsel : selectedTags (toggleTag tag (toggleTag tag {| search := s; selectedTags := sel; sortOrder := o |})) = sel).
    { rewrite toggleTag_present; rewrite toggleTag_absent by done; simpl.
      - rewrite List.filter_app, without_absent by done. simpl.
        rewrite bool_decide_eq_true_2 by done. simpl. apply app_nil_r.
      - apply elem_of_app. right. by left. }
    unfold toggleTag, setSelectedTags in *. simpl in *. by rewrite Hsel.
  - intros Hnd. apply NoDup_Permutation; [by do 2 apply toggleTag_NoDup|done|].
    intros t. apply toggleTag_twice_elem.
  - rewrite toggleTag_elem. destruct (decide (tag ∈ selectedTags st)); tauto.
  - intros t Hne. rewrite toggleTag_elem. tauto.
  - destruct (decide (tag ∈ selectedTags st)) as [Hin|Hout].
    + rewrite toggleTag_present by done. apply without_absent.
      rewrite elem_of_without. tauto.
    + rewrite toggleTag_absent, List.filter_app by done. simpl.
      rewrite bool_decide_eq_true_2 by done. simpl. apply app_nil_r.
Qed.

Lemma toggleTag_twice_witness :
  toggleTag (lit "x") (toggleTag (lit "x") initialState) = initialState
  /\ selectedTags
       (toggleTag (lit "x")
          (toggleTag (lit "x")
             {| search := lit ""; selectedTags := [lit "x"; lit "y"];
                sortOrder := lit "newest" |}))
     ≡ₚ [lit "x"; lit "y"].
Proof.
  split.
  - destruct (@toggleTag_twice asciiIntl (lit "x") initialState [])
      as (_ & _ & _ & Hback & _).
    apply Hback. apply not_elem_of_nil.
  - destruct (@toggleTag_twice asciiIntl (lit "x")
                {| search := lit ""; selectedTags := [lit "x"; lit "y"];
                   sortOrder := lit "newest" |} [])
      as (_ & _ & _ & _ & Hperm & _).
    apply Hperm. simpl. apply NoDup_cons. split.
    + intros Hin. apply list_elem_of_singleton in Hin. by vm_compute in Hin.
    + apply NoDup_singleton.
Defined.

(** The order of the selection is not kept: a selected tag that is
    clicked twice moves to the end. *)
Example toggleTag_twice_moves_tag :
  selectedTags
    (toggleTag (lit "x")
       (toggleTag (lit "x")
          {| search := lit ""; selectedTags := [lit "x"; lit "y"];
             sortOrder := lit "newest" |}))
  = [lit "y"; lit "x"].
Proof. by vm_compute. Qed.

Lemma popular_unknown : lit "popular" ∉ sortOrders.
Proof.
  unfold sortOrders. rewrite !not_elem_of_cons. split_and!; try by vm_compute.
  apply not_elem_of_nil.
Qed.

Lemma handle_NoDup e st :
  NoDup (selectedTags st) -> NoDup (selectedTags (handle e st)).
Proof. destruct e; simpl; [done|apply toggleTag_NoDup|done]. Qed.

Lemma run_NoDup es st :
  NoDup (selectedTags st) -> NoDup (selectedTags (run es st)).
Proof.
  revert st. induction es as [|e es IH]; intros st Hst; simpl; [done|].
  by apply IH, handle_NoDup.
Qed.

(** C10. The selection never holds a tag twice: it is empty at the
    start, a click keeps a selection free of duplicates free of them, and
    so is the selection after any sequence of events. A click on a
    selected tag filters out every occurrence of it; a click on a tag
    that is not selected appends it. *)
Theorem selectedTags_NoDup :
  NoDup (selectedTags initialState)
  /\ (forall tag st,
        NoDup (selectedTags st) -> NoDup (selectedTags (toggleTag tag st)))
  /\ (forall events, NoDup (selectedTags (run events initialState)))
  /\ (forall tag st,
        tag ∈ selectedTags st ->
        selectedTags (toggleTag tag st)
        = List.filter (fun t => negb (bool_decide (t = tag))) (selectedTags st)
        /\ tag ∉ selectedTags (toggleTag tag st))
  /\ (forall tag st,
        tag ∉ selectedTags st ->
        selectedTags (toggleTag tag st) = selectedTags st ++ [tag]).
Proof.
  split_and!.
  - apply NoDup_nil_2.
  - apply toggleTag_NoDup.
  - intros events. apply run_NoDup, NoDup_nil_2.
  - intros tag st Hin. split; [by apply toggleTag_present|].
    rewrite toggleTag_elem. tauto.
  - apply toggleTag_absent.
Qed.

Lemma selectedTags_NoDup_witness :
  NoDup (selectedTags
           (toggleTag (lit "x")
              {| search := lit ""; selectedTags := [lit "x"; lit "y"];
                 sortOrder := lit "newest" |})).
Proof.
  destruct selectedTags_NoDup as (_ & Hstep & _).
  apply Hstep. simpl. apply NoDup_cons. split.
  - intros Hin. apply list_elem_of_singleton in Hin. by vm_compute in Hin.
  - apply NoDup_singleton.
Defined.

(** C1 (as stated) fails: a value outside the four sort orders is not
    rejected. The specification's setter answers [InvalidArgument]; the
    component's setter stores the value, and the state is another one. *)
Lemma setSortOrder_keeps_unknown_value :
  (lit "popular" ∉ sortOrders)
  /\ spec_setSortOrder (lit "popular") initialState = inl InvalidArgument
  /\ setSortOrder (lit "popular") initialState
     = {| search := lit ""; selectedTags := []; sortOrder := lit "popular" |}
  /\ setSortOrder (lit "popular") initialState <> initialState.
Proof.
  split_and!; [apply popular_unknown| |done|by vm_compute].
  unfold spec_setSortOrder. rewrite bool_decide_eq_false_2; [done|].
  apply popular_unknown.
Qed.

(** C1 (as amended). [setSortOrder] takes every value, one of the four
    sort orders or not: the value becomes the sort order, the search text
    and the selection stay, and so does every handler answer with a
    state. A value that is none of the four sorts the posts as [z-a]
    does. *)
Theorem setSortOrder_total (value : jsstring) (st : QueryState) :
  sortOrder (setSortOrder value st) = value
  /\ search (setSortOrder value st) = search st
  /\ selectedTags (setSortOrder value st) = selectedTags st
  /\ (forall e : event, exists st', handle e st = st')
  /\ (value ∈ sortOrders ->
      spec_setSortOrder value st = inr (setSortOrder value st))
  /\ (value ∉ sortOrders ->
      forall (I : Intl) (posts : list Post),
        @results I posts (setSortOrder value st)
        = @results I posts (setSortOrder (lit "z-a") st)
        /\ @Copy.results I posts (setSortOrder value st)
           = @Copy.results I posts (setSortOrder (lit "z-a") st)).
Proof.
  split_and!; try done.
  - intros e. by eexists.
  - intros Hin. unfold spec_setSortOrder. by rewrite bool_decide_eq_true_2.
  - intros Hout I posts. unfold sortOrders in Hout.
    rewrite !not_elem_of_cons in Hout. destruct Hout as (Hn & Ho & Ha & _).
    assert (Hcmp : @comparator I value = @comparator I (lit "z-a")).
    { unfold comparator.
      rewrite !(bool_decide_eq_false_2 (value = _)) by done.
      rewrite !(bool_decide_eq_false_2 (lit "z-a" = _)) by (by vm_compute).
      done. }
    unfold results, Copy.results, filteredPosts, Copy.filteredPosts. simpl.
    by rewrite Hcmp.
Qed.

Lemma setSortOrder_total_witness :
  @results asciiIntl scenarioPosts (setSortOrder (lit "popular") initialState)
  = @results asciiIntl scenarioPosts (setSortOrder (lit "z-a") initialState)
  /\ @Copy.results asciiIntl scenarioPosts (setSortOrder (lit "popular") initialState)
     = @Copy.results asciiIntl scenarioPosts (setSortOrder (lit "z-a") initialState).
Proof.
  destruct (setSortOrder_total (lit "popular") initialState)
    as (_ & _ & _ & _ & _ & Hza).
  apply (Hza popular_unknown asciiIntl scenarioPosts).
Defined.

End Handlers.

(** ** The scenarios of the specification, computed *)

Section Scenarios.
Let Alpha : Post := mkPost "Alpha" "first post" 1672531200000 (Some [lit "x"]).
Let Beta : Post := mkPost "Beta" "second post" 1704067200000 (Some [lit "y"]).

Example scenario_A :
  @BlogList.filteredPosts asciiIntl scenarioPosts (lit "") [] (lit "newest")
  = [Beta; Alpha].
Proof. by vm_compute. Qed.

Example scenario_B :
  @BlogList.filteredPosts asciiIntl scenarioPosts (lit "alp") [] (lit "newest")
  = [Alpha].
Proof. by vm_compute. Qed.

Example scenario_C :
  @Copy.filteredPosts asciiIntl scenarioPosts (lit "") [lit "x"] (lit "newest")
  = [Alpha]
  /\ @BlogList.filteredPosts asciiIntl scenarioPosts (lit "") [lit "x"; lit "y"]
       (lit "newest")
     = []
  /\ @Copy.filteredPosts asciiIntl scenarioPosts (lit "") [lit "x"; lit "y"]
       (lit "newest")
     = [Beta; Alpha].
Proof. by vm_compute. Qed.

Example scenario_D :
  @BlogList.filteredPosts asciiIntl scenarioPosts (lit "") [] (lit "a-z")
  = [Alpha; Beta]
  /\ @BlogList.filteredPosts asciiIntl scenarioPosts (lit "") [] (lit "z-a")
     = [Beta; Alpha].
Proof. by vm_compute. Qed.

Example scenario_E :
  BlogList.allTags [] = []
  /\ @BlogList.results asciiIntl [] initialState = []
  /\ @BlogList.resultCount asciiIntl [] initialState = 0%nat.
Proof. by vm_compute. Qed.

(** The query is not trimmed: a blank matches only where a blank is. *)
Example blank_query :
  @BlogList.matchesSearch asciiIntl (lit " ") (mkPost "Alpha" "first post" 0 None)
  = true
  /\ @BlogList.matchesSearch asciiIntl (lit " ") (mkPost "Alpha" "first" 0 None)
     = false.
Proof. by vm_compute. Qed.

(** Posts published at the same time stay in the order received. *)
Example tied_posts_newest :
  List.map (fun p => title (data p))
    (@BlogList.results asciiIntl tiedPosts initialState)
  = [lit "Gamma"; lit "Delta"; lit "Alpha"].
Proof. by vm_compute. Qed.

End Scenarios.

(** ** The shortened description *)

Section Truncation.
Import View.

Lemma trimStart_suffix s : exists blanks, s = blanks ++ trimStart s.
Proof.
  induction s as [|u s [blanks IH]]; simpl; [by exists []|].
  destruct (isWhiteSpace u); [|by exists []].
  exists (u :: blanks). simpl. by f_equal.
Qed.

Lemma trimStart_head s u rest : trimStart s = u :: rest -> isWhiteSpace u = false.
Proof.
  induction s as [|v s IH]; simpl; [done|].
  destruct (isWhiteSpace v) eqn:Hv; [done|]. by intros [= <- _].
Qed.

Lemma trimEnd_prefix s : exists blanks, s = trimEnd s ++ blanks.
Proof.
  destruct (trimStart_suffix (rev s)) as [blanks Hs].
  exists (rev blanks). unfold trimEnd.
  rewrite <- rev_app_distr, <- Hs. by rewrite rev_involutive.
Qed.

Lemma trimEnd_last s rest u : trimEnd s = rest ++ [u] -> isWhiteSpace u = false.
Proof.
  unfold trimEnd. intros Hs. apply (f_equal (@rev N)) in Hs.
  rewrite rev_involutive, rev_app_distr in Hs. simpl in Hs.
  by eapply trimStart_head.
Qed.

Lemma trim_head s u rest : trim s = u :: rest -> isWhiteSpace u = false.
Proof.
  unfold trim. intros Hs.
  destruct (trimEnd_prefix (trimStart s)) as [blanks Hp].
  rewrite Hs in Hp. by eapply trimStart_head.
Qed.

Lemma trim_last s rest u : trim s = rest ++ [u] -> isWhiteSpace u = false.
Proof. unfold trim. apply trimEnd_last. Qed.

Lemma trim_substring s : isSubstring (trim s) s.
Proof.
  destruct (trimStart_suffix s) as [before Hs].
  destruct (trimEnd_prefix (trimStart s)) as [after Ht].
  exists before, after. unfold trim. by rewrite <- Ht.
Qed.

Lemma isSubstring_length q s : isSubstring q s -> (length q <= length s)%nat.
Proof. intros (before & after & ->). rewrite !length_app. lia. Qed.

Lemma isSubstring_trans a b c : isSubstring a b -> isSubstring b c -> isSubstring a c.
Proof.
  intros (p1 & s1 & ->) (p2 & s2 & ->). exists (p2 ++ p1), (s1 ++ s2).
  by rewrite <- !app_assoc.
Qed.

Lemma sliceTo_substring n s : isSubstring (sliceTo n s) s.
Proof. exists [], (skipn n s). simpl. unfold sliceTo. by rewrite firstn_skipn. Qed.

(** X1. The shortened description is never longer than [maxLength]
    plus the four dots, and a text of at most [maxLength] code units,
    the bound included, is shown as it is. *)
Theorem truncateDescription_bounded (text : jsstring) (maxLength : nat) :
  (length (truncateDescription text maxLength) <= maxLength + 4)%nat
  /\ ((length text <= maxLength)%nat -> truncateDescription text maxLength = text).
Proof.
  unfold truncateDescription.
  destruct (length text <=? maxLength)%nat eqn:Hlen.
  - apply Nat.leb_le in Hlen. split; [lia|done].
  - apply Nat.leb_gt in Hlen. split; [|lia].
    rewrite length_app. change (length (lit "....")) with 4%nat.
    pose proof (isSubstring_length _ _ (trim_substring (sliceTo maxLength text))) as Hw.
    unfold sliceTo in *. rewrite length_firstn in Hw. lia.
Qed.

Lemma truncateDescription_bounded_witness :
  truncateDescription (lit "A first post") 12 = lit "A first post".
Proof.
  apply (truncateDescription_bounded (lit "A first post") 12).
  vm_compute. lia.
Defined.

(** X2. A text longer than [maxLength] is shown as a piece of its
    first [maxLength] code units followed by four dots; the piece has
    white space neither at its start nor at its end, so the dots never
    follow a blank. *)
Theorem truncateDescription_long (text : jsstring) (maxLength : nat) :
  (maxLength < length text)%nat ->
  exists piece,
    truncateDescription text maxLength = piece ++ lit "...."
    /\ isSubstring piece (sliceTo maxLength text)
    /\ isSubstring piece text
    /\ (length piece <= maxLength)%nat
    /\ (forall u rest, piece = u :: rest -> isWhiteSpace u = false)
    /\ (forall rest u, piece = rest ++ [u] -> isWhiteSpace u = false).
Proof.
  intros Hlen. exists (trim (sliceTo maxLength text)).
  assert (Hsub : isSubstring (trim (sliceTo maxLength text)) (sliceTo maxLength text))
    by apply trim_substring.
  split_and!.
  - unfold truncateDescription. by rewrite (proj2 (Nat.leb_gt _ _) Hlen).
  - done.
  - eapply isSubstring_trans; [exact Hsub|apply sliceTo_substring].
  - apply isSubstring_length in Hsub. unfold sliceTo in *.
    rewrite length_firstn in Hsub. lia.
  - apply trim_head.
  - apply trim_last.
Qed.

Lemma truncateDescription_long_witness :
  exists piece,
    truncateDescription (lit "A first post") 8 = piece ++ lit "...."
    /\ isSubstring piece (sliceTo 8 (lit "A first post"))
    /\ isSubstring piece (lit "A first post")
    /\ (length piece <= 8)%nat
    /\ (forall u rest, piece = u :: rest -> isWhiteSpace u = false)
    /\ (forall rest u, piece = rest ++ [u] -> isWhiteSpace u = false).
Proof.
  apply (truncateDescription_long (lit "A first post") 8).
  vm_compute. lia.
Defined.

Example truncateDescription_blank_cut :
  truncateDescription (lit "A first post") 8 = lit "A first....".
Proof. by vm_compute. Qed.

End Truncation.

(** ** What is shown, and how much of it *)

Section Shown.
Import BlogList View.
Context `{Intl}.

Lemma results_elem posts st post :
  post ∈ results posts st <->
  post ∈ posts /\ keep (search st) (selectedTags st) post = true.
Proof.
  unfold results, filteredPosts.
  by rewrite sort_elem, !list_elem_of_In, filter_In.
Qed.

Lemma copy_results_elem posts st post :
  post ∈ Copy.results posts st <->
  post ∈ posts /\ Copy.keep (search st) (selectedTags st) post = true.
Proof.
  unfold Copy.results, Copy.filteredPosts.
  by rewrite sort_elem, !list_elem_of_In, filter_In.
Qed.

Lemma filter_length_le {A} (P : A -> bool) l :
  (length (List.filter P l) <= length l)%nat.
Proof. induction l as [|x l IH]; simpl; [done|]. destruct (P x); simpl; lia. Qed.

Lemma filter_nil_iff {A} (P : A -> bool) (l : list A) :
  List.filter P l = [] <-> forall x, x ∈ l -> P x = false.
Proof.
  induction l as [|x l IH]; simpl.
  - split; [by intros _ ? ?%elem_of_nil|done].
  - destruct (P x) eqn:Hx.
    + split; [done|]. intros Hall. specialize (Hall x ltac:(left)). congruence.
    + rewrite IH. split.
      * intros Hall y [->|Hy]%elem_of_cons; auto.
      * intros Hall y Hy. apply Hall. by right.
Qed.

Lemma map_filter_NoDup {A B} (f : A -> B) (P : A -> bool) l :
  NoDup (List.map f l) -> NoDup (List.map f (List.filter P l)).
Proof.
  induction l as [|x l IH]; simpl; [done|].
  intros [Hx Hl]%NoDup_cons. destruct (P x); simpl; [|by apply IH].
  apply NoDup_cons. split; [|by apply IH].
  intros Hin. apply Hx. apply list_elem_of_In, in_map_iff.
  apply list_elem_of_In, in_map_iff in Hin as (y & Hy & Hin).
  exists y. split; [done|]. by apply filter_In in Hin as [? _].
Qed.

(** X3. The sort order decides the order of the posts shown and
    nothing else: under any two values of it the posts shown are the
    same, each as often, and so is their count, which is at most the
    number of posts received. This holds in both copies. *)
Theorem sortOrder_only_reorders (posts : list Post) (st : QueryState)
    (value : jsstring) :
  results posts (setSortOrder value st) ≡ₚ results posts st
  /\ Copy.results posts (setSortOrder value st) ≡ₚ Copy.results posts st
  /\ resultCount posts (setSortOrder value st) = resultCount posts st
  /\ (resultCount posts st <= length posts)%nat
  /\ length (Copy.results posts (setSortOrder value st))
     = length (Copy.results posts st)
  /\ (length (Copy.results posts st) <= length posts)%nat.
Proof.
  assert (Hperm : results posts (setSortOrder value st) ≡ₚ results posts st).
  { unfold results, filteredPosts. simpl. by rewrite !sort_perm. }
  assert (Hcopy : Copy.results posts (setSortOrder value st)
                  ≡ₚ Copy.results posts st).
  { unfold Copy.results, Copy.filteredPosts. simpl. by rewrite !sort_perm. }
  split_and!; [done|done| | | |].
  - unfold resultCount. by rewrite Hperm.
  - unfold resultCount, results, filteredPosts. rewrite sort_length.
    apply filter_length_le.
  - by rewrite Hcopy.
  - unfold Copy.results, Copy.filteredPosts. rewrite sort_length.
    apply filter_length_le.
Qed.

(** X4. The notice that no post matches is shown exactly when every
    post received fails the search test or the tag test. *)
Theorem noPostsFound_iff (posts : list Post) (st : QueryState) :
  (noPostsFound (results posts st) = true <->
     forall post, post ∈ posts ->
       matchesSearch (search st) post = false
       \/ matchesTags (selectedTags st) post = false)
  /\ (noPostsFound (Copy.results posts st) = true <->
        forall post, post ∈ posts ->
          matchesSearch (search st) post = false
          \/ Copy.matchesTags (selectedTags st) post = false).
Proof.
  unfold noPostsFound, results, Copy.results, filteredPosts, Copy.filteredPosts.
  rewrite !bool_decide_eq_true, !sort_length, !length_zero_iff_nil, !filter_nil_iff.
  unfold keep, Copy.keep. by setoid_rewrite andb_false_iff.
Qed.

(** X5. When the posts received have distinct ids, the keys of the
    items shown are distinct as well. *)
Theorem itemKeys_distinct (posts : list Post) (st : QueryState) :
  NoDup (List.map id posts) ->
  NoDup (itemKeys (results posts st)) /\ NoDup (itemKeys (Copy.results posts st)).
Proof.
  intros Hids. unfold itemKeys, results, Copy.results, filteredPosts, Copy.filteredPosts.
  split.
  - rewrite (Permutation_map id (sort_perm _ _)). by apply map_filter_NoDup.
  - rewrite (Permutation_map id (sort_perm _ _)). by apply map_filter_NoDup.
Qed.

End Shown.

Lemma itemKeys_distinct_witness :
  NoDup (View.itemKeys (@BlogList.results asciiIntl scenarioPosts initialState))
  /\ NoDup (View.itemKeys (@Copy.results asciiIntl scenarioPosts initialState)).
Proof.
  apply (@itemKeys_distinct asciiIntl scenarioPosts initialState).
  apply NoDup_cons. split.
  - intros Hin. apply list_elem_of_singleton in Hin. by vm_compute in Hin.
  - apply NoDup_singleton.
Defined.

(** ** Selecting tags *)

Section Selecting.
Import BlogList View.
Context `{Intl}.

Lemma allTags_elem posts tag : tag ∈ allTags posts <-> taggedWith posts tag.
Proof.
  unfold allTags, collectTags. rewrite sort_elem, collect_elem, elem_of_nil. tauto.
Qed.

Lemma postHasTag_tagged posts post tag :
  post ∈ posts -> postHasTag post tag = true -> tag ∈ allTags posts.
Proof.
  intros Hpost (ts & Hts & Htag)%postHasTag_spec.
  apply allTags_elem. by exists post, ts.
Qed.

Lemma every_implies_some selectedTags post :
  matchesTags selectedTags post = true -> Copy.matchesTags selectedTags post = true.
Proof.
  rewrite matchesTags_every, matchesTags_some. intros [->|Hall]; [by left|].
  destruct selectedTags as [|tag rest]; [by left|].
  right. exists tag. split; [by left|]. apply Hall. by left.
Qed.

Lemma keep_implies_copy_keep q selectedTags post :
  keep q selectedTags post = true -> Copy.keep q selectedTags post = true.
Proof.
  unfold keep, Copy.keep. rewrite !andb_true_iff.
  intros [? ?]. split; [done|]. by apply every_implies_some.
Qed.

Lemma filter_length_mono {A} (P Q : A -> bool) l :
  (forall x, P x = true -> Q x = true) ->
  (length (List.filter P l) <= length (List.filter Q l))%nat.
Proof.
  intros HPQ. induction l as [|x l IH]; simpl; [done|].
  destruct (P x) eqn:HP.
  - rewrite (HPQ x HP). simpl. lia.
  - destruct (Q x); simpl; lia.
Qed.

(** X6. In [BlogList.tsx] a further selected tag can only take posts
    away, and leaves only posts that carry it; taking a tag out of the
    selection can only bring posts back. *)
Theorem every_selection_narrows (posts : list Post) (st : QueryState)
    (tag : jsstring) (post : Post) :
  (tag ∉ selectedTags st ->
   post ∈ results posts (toggleTag tag st) ->
   post ∈ results posts st /\ postHasTag post tag = true)
  /\ (tag ∈ selectedTags st ->
      post ∈ results posts st -> post ∈ results posts (toggleTag tag st)).
Proof.
  rewrite !results_elem. unfold keep. rewrite !andb_true_iff, !matchesTags_every.
  change (search (toggleTag tag st)) with (search st). split.
  - intros Hout (Hpost & Hsearch & Htags). rewrite toggleTag_absent in Htags by done.
    destruct Htags as [Hnil|Hall]; [by destruct (selectedTags st)|].
    split_and!; [done|done| |].
    + right. intros t Ht. apply Hall, elem_of_app. by left.
    + apply Hall, elem_of_app. right. by left.
  - intros Hin (Hpost & Hsearch & Htags). split_and!; [done|done|].
    destruct Htags as [Hnil|Hall]; [by rewrite Hnil in Hin; apply elem_of_nil in Hin|].
    right. intros t Ht. apply Hall. rewrite toggleTag_elem in Ht. tauto.
Qed.

(** X7. In the copy a further selected tag can only add posts once
    some tag is selected; the first selected tag leaves the posts that
    carry it. *)
Theorem some_selection_widens (posts : list Post) (st : QueryState)
    (tag : jsstring) (post : Post) :
  (selectedTags st <> [] -> tag ∉ selectedTags st ->
   post ∈ Copy.results posts st -> post ∈ Copy.results posts (toggleTag tag st))
  /\ (selectedTags st = [] ->
      (post ∈ Copy.results posts (toggleTag tag st) <->
       post ∈ Copy.results posts st /\ postHasTag post tag = true)).
Proof.
  rewrite !copy_results_elem. unfold Copy.keep.
  rewrite !andb_true_iff, !matchesTags_some.
  change (search (toggleTag tag st)) with (search st). split.
  - intros Hsel Hout (Hpost & Hsearch & Htags). split_and!; [done|done|].
    destruct Htags as [Hnil|(t & Ht & Hhas)]; [done|].
    right. exists t. split; [|done]. rewrite toggleTag_absent by done.
    apply elem_of_app. by left.
  - intros Hnil. rewrite toggleTag_absent by (rewrite Hnil; apply not_elem_of_nil).
    rewrite Hnil. simpl. split.
    + intros (Hpost & Hsearch & [Hno|(t & Ht & Hhas)]); [done|].
      apply list_elem_of_singleton in Ht as ->. split_and!; auto.
    + intros ((Hpost & Hsearch & _) & Hhas). split_and!; [done|done|].
      right. exists tag. split; [by left|done].
Qed.

(** X8. With at most one tag selected the two copies show the same
    list. *)
Theorem copies_agree_on_one_tag (posts : list Post) (st : QueryState) :
  (length (selectedTags st) <= 1)%nat ->
  Copy.results posts st = results posts st.
Proof.
  intros Hlen. unfold Copy.results, results, Copy.filteredPosts, filteredPosts.
  f_equal. apply List.filter_ext. intros post. unfold Copy.keep, keep. f_equal.
  unfold Copy.matchesTags, matchesTags.
  destruct (selectedTags st) as [|t [|t' rest]]; [done| |simpl in Hlen; lia].
  simpl. by rewrite orb_false_r, andb_true_r.
Qed.

(** X9. Whatever [BlogList.tsx] shows the copy shows too, so the copy
    never shows fewer posts. *)
Theorem every_within_some (posts : list Post) (st : QueryState) :
  (forall post, post ∈ results posts st -> post ∈ Copy.results posts st)
  /\ (length (results posts st) <= length (Copy.results posts st))%nat.
Proof.
  split.
  - intros post. rewrite results_elem, copy_results_elem.
    intros [? ?]. split; [done|]. by apply keep_implies_copy_keep.
  - unfold results, Copy.results, filteredPosts, Copy.filteredPosts.
    rewrite !sort_length. apply filter_length_mono.
    intros post. apply keep_implies_copy_keep.
Qed.

(** X10. With the empty search text, the button of a vocabulary tag,
    pressed alone, shows at least one post, and only posts that carry
    the tag. *)
Theorem vocabulary_tag_finds_posts :
  lowerOfEmpty ->
  forall (posts : list Post) (tag order : jsstring),
    tag ∈ allTags posts ->
    results posts {| search := lit ""; selectedTags := [tag]; sortOrder := order |}
    <> []
    /\ Forall (fun post => postHasTag post tag = true)
         (results posts
            {| search := lit ""; selectedTags := [tag]; sortOrder := order |}).
Proof.
  intros Hempty posts tag order Htag.
  set (st := {| search := lit ""; selectedTags := [tag]; sortOrder := order |}).
  assert (Hkeep : forall post, keep (search st) (selectedTags st) post = postHasTag post tag).
  { intros post. unfold keep, matchesSearch, matchesTags. simpl.
    change (lit "") with (@nil N). rewrite Hempty, !includes_empty. simpl.
    by rewrite andb_true_r. }
  split.
  - apply allTags_elem in Htag as (post & ts & Hpost & Hts & Htag).
    assert (Hin : post ∈ results posts st).
    { apply results_elem. split; [done|]. rewrite Hkeep.
      apply postHasTag_spec. by exists ts. }
    intros Hnil. rewrite Hnil in Hin. by apply elem_of_nil in Hin.
  - apply Forall_forall. intros post [_ Hk]%results_elem. by rewrite Hkeep in Hk.
Qed.

(** X11. A selected tag that no post carries empties the list of
    [BlogList.tsx]; in the copy it does so when it is the only one
    selected. *)
Theorem unknown_tag_finds_nothing (posts : list Post) (st : QueryState)
    (tag : jsstring) :
  tag ∉ allTags posts ->
  (tag ∈ selectedTags st -> results posts st = [])
  /\ (selectedTags st = [tag] -> Copy.results posts st = []).
Proof.
  intros Hout.
  assert (Hno : forall post, post ∈ posts -> postHasTag post tag = false).
  { intros post Hpost. apply not_true_is_false. intros Hhas.
    by apply Hout, (postHasTag_tagged posts post). }
  split.
  - intros Hin. unfold results, filteredPosts.
    rewrite (proj2 (filter_nil_iff _ posts)); [done|].
    intros post Hpost. unfold keep. apply andb_false_iff. right.
    apply not_true_is_false. rewrite matchesTags_every. intros [Hnil|Hall].
    + rewrite Hnil in Hin. by apply elem_of_nil in Hin.
    + specialize (Hall tag Hin). by rewrite Hno in Hall.
  - intros Hsel. unfold Copy.results, Copy.filteredPosts.
    rewrite (proj2 (filter_nil_iff _ posts)); [done|].
    intros post Hpost. unfold Copy.keep, Copy.matchesTags. rewrite Hsel. simpl.
    rewrite (Hno post Hpost). simpl. apply andb_false_r.
Qed.

(** X12. Two tag buttons can be pressed in either order: the selection
    is the same set, and both copies show the same list. *)
Theorem toggleTag_commutes (posts : list Post) (st : QueryState)
    (tag tag' : jsstring) :
  (list_to_set (selectedTags (toggleTag tag (toggleTag tag' st)))
   =@{gset (list N)} list_to_set (selectedTags (toggleTag tag' (toggleTag tag st))))
  /\ results posts (toggleTag tag (toggleTag tag' st))
     = results posts (toggleTag tag' (toggleTag tag st))
  /\ Copy.results posts (toggleTag tag (toggleTag tag' st))
     = Copy.results posts (toggleTag tag' (toggleTag tag st)).
Proof.
  assert (Hsame : forall t,
            t ∈ selectedTags (toggleTag tag (toggleTag tag' st)) <->
            t ∈ selectedTags (toggleTag tag' (toggleTag tag st))).
  { intros t. rewrite !toggleTag_elem.
    destruct (decide (t = tag)), (decide (t = tag')),
      (decide (tag ∈ selectedTags st)), (decide (tag' ∈ selectedTags st));
      subst; intuition congruence. }
  split_and!.
  - apply set_eq. intros t. rewrite !elem_of_list_to_set. apply Hsame.
  - by apply results_same_members.
  - by apply results_same_members.
Qed.

End Selecting.

Lemma every_selection_narrows_witness :
  mkPost "Alpha" "first post" 1672531200000 (Some [lit "x"])
    ∈ @BlogList.results asciiIntl scenarioPosts initialState
  /\ BlogList.postHasTag
       (mkPost "Alpha" "first post" 1672531200000 (Some [lit "x"])) (lit "x")
     = true.
Proof.
  destruct (@every_selection_narrows asciiIntl scenarioPosts initialState (lit "x")
              (mkPost "Alpha" "first post" 1672531200000 (Some [lit "x"])))
    as [Hnarrow _].
  apply Hnarrow.
  - apply not_elem_of_nil.
  - vm_compute. left.
Defined.

Lemma some_selection_widens_witness :
  mkPost "Alpha" "first post" 1672531200000 (Some [lit "x"])
    ∈ @Copy.results asciiIntl scenarioPosts
        (BlogList.toggleTag (lit "y")
           {| search := lit ""; selectedTags := [lit "x"]; sortOrder := lit "newest" |}).
Proof.
  destruct (@some_selection_widens asciiIntl scenarioPosts
              {| search := lit ""; selectedTags := [lit "x"]; sortOrder := lit "newest" |}
              (lit "y")
              (mkPost "Alpha" "first post" 1672531200000 (Some [lit "x"])))
    as [Hwiden _].
  apply Hwiden.
  - done.
  - simpl. intros Hin. apply list_elem_of_singleton in Hin. by vm_compute in Hin.
  - vm_compute. left.
Defined.

Lemma copies_agree_on_one_tag_witness :
  @Copy.results asciiIntl scenarioPosts
    {| search := lit ""; selectedTags := [lit "x"]; sortOrder := lit "newest" |}
  = @BlogList.results asciiIntl scenarioPosts
      {| search := lit ""; selectedTags := [lit "x"]; sortOrder := lit "newest" |}.
Proof.
  apply (@copies_agree_on_one_tag asciiIntl scenarioPosts
           {| search := lit ""; selectedTags := [lit "x"]; sortOrder := lit "newest" |}).
  simpl. lia.
Defined.

Lemma vocabulary_tag_finds_posts_witness :
  @BlogList.results asciiIntl scenarioPosts
    {| search := lit ""; selectedTags := [lit "y"]; sortOrder := lit "a-z" |}
  <> []
  /\ Forall (fun post => BlogList.postHasTag post (lit "y") = true)
       (@BlogList.results asciiIntl scenarioPosts
          {| search := lit ""; selectedTags := [lit "y"]; sortOrder := lit "a-z" |}).
Proof.
  apply (@vocabulary_tag_finds_posts asciiIntl).
  - reflexivity.
  - vm_compute. right. left.
Defined.

Lemma unknown_tag_finds_nothing_witness :
  @BlogList.results asciiIntl scenarioPosts
    {| search := lit ""; selectedTags := [lit "x"; lit "z"]; sortOrder := lit "newest" |}
  = [].
Proof.
  destruct (@unknown_tag_finds_nothing asciiIntl scenarioPosts
              {| search := lit ""; selectedTags := [lit "x"; lit "z"];
                 sortOrder := lit "newest" |} (lit "z")) as [Hnone _].
  - vm_compute. intros Hin.
    apply elem_of_cons in Hin as [Hin|Hin]; [by vm_compute in Hin|].
    apply list_elem_of_singleton in Hin. by vm_compute in Hin.
  - apply Hnone. simpl. right. left.
Defined.

(** ** Sorting and filtering *)

Section SortAlgebra.
Context {A : Type} (cmp : A -> A -> Z).

Lemma sort_ext (cmp' : A -> A -> Z) l :
  (forall a b, cmp a b = cmp' a b) -> sort cmp l = sort cmp' l.
Proof.
  intros Hext. induction l as [|x l IH]; simpl; [done|]. rewrite <- IH.
  generalize (sort cmp l). intros m. induction m as [|y m IHm]; simpl; [done|].
  by rewrite <- Hext, IHm.
Qed.

Lemma filter_swap (P Q : A -> bool) l :
  List.filter P (List.filter Q l) = List.filter Q (List.filter P l).
Proof.
  induction l as [|x l IH]; simpl; [done|].
  destruct (P x) eqn:HP, (Q x) eqn:HQ; simpl; rewrite ?HP, ?HQ, IH; done.
Qed.

Lemma filter_implied (P Q : A -> bool) l :
  (forall x, P x = true -> Q x = true) ->
  List.filter P (List.filter Q l) = List.filter P l.
Proof.
  intros HPQ. induction l as [|x l IH]; simpl; [done|].
  destruct (Q x) eqn:HQ; simpl; rewrite IH; [done|].
  destruct (P x) eqn:HP; [|done]. rewrite (HPQ x HP) in HQ. done.
Qed.

Lemma elem_of_rev (x : A) l : x ∈ rev l <-> x ∈ l.
Proof. rewrite !list_elem_of_In. symmetry. apply in_rev. Qed.

End SortAlgebra.

Section Reordering.
Import BlogList.
Context `{Intl}.

Lemma Forall_list_filter {A} (Q : A -> Prop) (P : A -> bool) (l : list A) :
  Forall Q l -> Forall Q (List.filter P l).
Proof.
  rewrite !Forall_forall. intros Hl x Hx. apply Hl.
  apply list_elem_of_In, filter_In in Hx as [Hx _]. by apply list_elem_of_In.
Qed.

Lemma sort_by_order_filter sortOrder (P : Post -> bool) l :
  consistentCompare -> Forall (datedFor sortOrder) l ->
  List.filter P (sort (compareElements (comparator sortOrder)) l)
  = sort (compareElements (comparator sortOrder)) (List.filter P l).
Proof.
  intros Hc Hl. apply (sort_filter_on _ (datedFor sortOrder)); [| | |done].
  - intros a b. by apply comparator_total_on.
  - intros a b c. by apply comparator_trans_on.
  - intros a _. by apply comparator_refl.
Qed.

(** X13. When every post received has a valid publication date (which
    matters under [newest] and [oldest] only), the list shown is the
    whole collection in the chosen order with the posts that fail the
    filter left out, so typing in the search box or pressing tags never
    changes the relative order of two posts that stay; likewise the list
    of [BlogList.tsx] is the list of the copy with the posts that fail
    its stricter tag test left out. *)
Theorem results_filter_sorted :
  consistentCompare ->
  forall (posts : list Post) (st : QueryState),
    Forall (datedFor (sortOrder st)) posts ->
    results posts st
    = List.filter (keep (search st) (selectedTags st))
        (sort (compareElements (comparator (sortOrder st))) posts)
    /\ Copy.results posts st
       = List.filter (Copy.keep (search st) (selectedTags st))
           (sort (compareElements (comparator (sortOrder st))) posts)
    /\ results posts st
       = List.filter (keep (search st) (selectedTags st)) (Copy.results posts st).
Proof.
  intros Hc posts st Hdated.
  unfold results, Copy.results, filteredPosts, Copy.filteredPosts.
  rewrite !sort_by_order_filter by (done || by apply Forall_list_filter).
  split_and!; [done|done|].
  f_equal. symmetry. apply filter_implied. apply keep_implies_copy_keep.
Qed.

(** X14. When every post received has a valid publication date and no
    two are published at the same time, the list under [oldest] is the
    list under [newest] read backwards; when the locale's comparison
    ties no two different posts by title, the list under [z-a] is the
    list under [a-z] read backwards. *)
Theorem opposite_orders_reverse (posts : list Post) (q : jsstring)
    (selected : list jsstring) :
  (Forall validDate posts ->
   (forall a b, a ∈ posts -> b ∈ posts ->
      pubDate (data a) = pubDate (data b) -> a = b) ->
   filteredPosts posts q selected (lit "oldest")
   = rev (filteredPosts posts q selected (lit "newest")))
  /\ (consistentCompare ->
      (forall a b, a ∈ posts -> b ∈ posts ->
         localeCompare (title (data a)) (title (data b)) = 0 -> a = b) ->
      filteredPosts posts q selected (lit "z-a")
      = rev (filteredPosts posts q selected (lit "a-z"))).
Proof.
  assert (Hin : forall a, a ∈ List.filter (keep q selected) posts -> a ∈ posts).
  { intros a Ha. apply list_elem_of_In, filter_In in Ha as [Ha _].
    by apply list_elem_of_In. }
  unfold filteredPosts. split.
  - intros Hvalid Hdates.
    rewrite <- (sort_opposite_on (compareElements (comparator (lit "newest")))
                  validDate).
    + apply sort_ext. intros a b. unfold compareElements.
      by rewrite comparator_oldest, comparator_newest.
    + intros a b Ha Hb. unfold compareElements, validDate in *.
      rewrite !comparator_newest.
      destruct (pubDate (data a)), (pubDate (data b)); simpl; try congruence; lia.
    + intros a b c Ha Hb Hd. unfold compareElements, validDate in *.
      rewrite !comparator_newest.
      destruct (pubDate (data a)), (pubDate (data b)), (pubDate (data c));
        simpl; try congruence; lia.
    + by apply Forall_list_filter.
    + intros a b Ha%Hin Hb%Hin. unfold compareElements.
      rewrite !comparator_newest. intros Hab Hba. apply Hdates; [done|done|].
      rewrite Forall_forall in Hvalid.
      pose proof (Hvalid a Ha) as Hva. pose proof (Hvalid b Hb) as Hvb.
      unfold validDate in *.
      destruct (pubDate (data a)), (pubDate (data b)); simpl in *; try congruence.
      f_equal. lia.
  - intros Hc Htitles.
    rewrite <- (sort_opposite_on (compareElements (comparator (lit "a-z")))
                  (datedFor (lit "a-z"))).
    + apply sort_ext. intros a b. unfold compareElements.
      by rewrite comparator_za, comparator_az.
    + intros a b. by apply comparator_total_on.
    + intros a b c. by apply comparator_trans_on.
    + by apply datedFor_titles; vm_compute.
    + intros a b Ha%Hin Hb%Hin. unfold compareElements.
      rewrite !comparator_az. intros Hab Hba.
      apply Htitles; [done|done|].
      pose proof (localeCompare_nonpos_flip _ _ Hc Hba). lia.
Qed.

End Reordering.

Lemma results_filter_sorted_witness :
  @BlogList.results asciiIntl scenarioPosts
    {| search := lit "post"; selectedTags := [lit "x"]; sortOrder := lit "newest" |}
  = List.filter (@BlogList.keep asciiIntl (lit "post") [lit "x"])
      (sort (compareElements (@BlogList.comparator asciiIntl (lit "newest")))
         scenarioPosts).
Proof.
  apply (@results_filter_sorted asciiIntl asciiIntl_consistent scenarioPosts
           {| search := lit "post"; selectedTags := [lit "x"];
              sortOrder := lit "newest" |}).
  apply datedFor_dates, scenarioPosts_dated.
Defined.

Lemma opposite_orders_reverse_witness :
  @BlogList.filteredPosts asciiIntl scenarioPosts (lit "") [] (lit "oldest")
  = rev (@BlogList.filteredPosts asciiIntl scenarioPosts (lit "") [] (lit "newest")).
Proof.
  destruct (@opposite_orders_reverse asciiIntl scenarioPosts (lit "") [])
    as [Hdates _].
  apply Hdates; [apply scenarioPosts_dated|]. intros a b Ha Hb.
  apply elem_of_cons in Ha as [->|Ha]; [|apply list_elem_of_singleton in Ha as ->];
    (apply elem_of_cons in Hb as [->|Hb]; [|apply list_elem_of_singleton in Hb as ->]);
    simpl; intros Hd; (reflexivity || discriminate Hd).
Defined.

(** ** The vocabulary, the badges and the buttons *)

Section Buttons.
Import BlogList View.

Lemma allTags_ascending posts :
  StronglySorted (fun a b => compareUnits a b = Lt) (allTags posts)
  /\ NoDup (allTags posts).
Proof.
  assert (Hnd : NoDup (allTags posts)).
  { unfold allTags. rewrite sort_perm. apply collect_NoDup, NoDup_nil_2. }
  split; [|done].
  eapply StronglySorted_weaken;
    [|apply StronglySorted_strict;
      [apply (sort_sorted defaultCompare defaultCompare_total defaultCompare_trans)
      |exact Hnd]].
  intros a b [Hab Hne]. apply defaultCompare_le in Hab.
  destruct (compareUnits a b) eqn:Hc; [|done|done].
  by apply compareUnits_eq in Hc.
Qed.

(** X15. The vocabulary depends on which posts are received and not on
    their order or on how often one of them occurs. *)
Theorem allTags_same_posts (posts posts' : list Post) :
  (forall post, post ∈ posts <-> post ∈ posts') ->
  allTags posts = allTags posts'.
Proof.
  intros Hsame.
  destruct (allTags_ascending posts) as [Hs Hnd].
  destruct (allTags_ascending posts') as [Hs' Hnd'].
  apply (StronglySorted_unique_strong (fun a b => compareUnits a b = Lt));
    [|done|done|].
  - intros a b _ _ Hab Hba. rewrite (compareUnits_flip a b), Hab in Hba. done.
  - apply NoDup_Permutation; [done|done|].
    intros tag. rewrite !allTags_elem. unfold taggedWith.
    by setoid_rewrite Hsame.
Qed.

(** X16. A post shows badges exactly when it has a [tags] field: at
    most three of them, the first tags of the post in their order, all
    of them when the post has three or fewer; every badge of a post that
    was received has its button in the vocabulary. *)
Theorem tagBadges_spec (posts : list Post) (post : Post) :
  (tagBadges post = None <-> tags (data post) = None)
  /\ (forall badges, tagBadges post = Some badges ->
        (length badges <= 3)%nat
        /\ (exists rest, tags (data post) = Some (badges ++ rest)
                         /\ (rest <> [] -> length badges = 3%nat))
        /\ (post ∈ posts -> forall badge, badge ∈ badges -> badge ∈ allTags posts)).
Proof.
  unfold tagBadges. destruct (tags (data post)) as [ts|] eqn:Hts; split; try done.
  intros badges [= <-]. split_and!.
  - rewrite length_firstn. lia.
  - exists (skipn 3 ts). split; [by rewrite firstn_skipn|].
    intros Hrest. rewrite length_firstn.
    destruct (Nat.le_gt_cases 3 (length ts)) as [|Hshort]; [lia|].
    by rewrite skipn_all2 in Hrest by lia.
  - intros Hpost badge Hbadge. apply allTags_elem. exists post, ts.
    split_and!; [done|done|].
    by apply (subseteq_take 3 ts).
Qed.

Lemma tagBadges_spec_witness :
  (length [lit "a"; lit "b"; lit "c"] <= 3)%nat
  /\ (exists rest,
        tags (data (mkPost "Tagged" "" 0
                      (Some [lit "a"; lit "b"; lit "c"; lit "d"])))
        = Some ([lit "a"; lit "b"; lit "c"] ++ rest)
        /\ (rest <> [] -> length [lit "a"; lit "b"; lit "c"] = 3%nat))
  /\ (mkPost "Tagged" "" 0 (Some [lit "a"; lit "b"; lit "c"; lit "d"])
        ∈ [mkPost "Tagged" "" 0 (Some [lit "a"; lit "b"; lit "c"; lit "d"])] ->
      forall badge, badge ∈ [lit "a"; lit "b"; lit "c"] ->
        badge ∈ allTags [mkPost "Tagged" "" 0
                           (Some [lit "a"; lit "b"; lit "c"; lit "d"])]).
Proof.
  destruct (tagBadges_spec
              [mkPost "Tagged" "" 0 (Some [lit "a"; lit "b"; lit "c"; lit "d"])]
              (mkPost "Tagged" "" 0 (Some [lit "a"; lit "b"; lit "c"; lit "d"])))
    as [_ Hbadges].
  apply Hbadges. reflexivity.
Defined.

Lemma clicks_cons e es tag :
  clicks tag (e :: es)
  = ((match e with
      | TagClicked t => if bool_decide (t = tag) then 1 else 0
      | _ => 0
      end) + clicks tag es)%nat.
Proof.
  unfold clicks. simpl. destruct e as [v|t|v]; try done.
  by case_bool_decide.
Qed.

Lemma pressed_after_run es st tag :
  tagPressed (run es st) tag = xorb (tagPressed st tag) (Nat.odd (clicks tag es)).
Proof.
  revert st. induction es as [|e es IH]; intros st.
  { simpl. by rewrite xorb_false_r. }
  change (run (e :: es) st) with (run es (handle e st)).
  rewrite IH, clicks_cons. destruct e as [v|t|v]; simpl; try done.
  case_bool_decide as Ht; simpl; unfold tagPressed, arrayIncludes.
  - subst t. rewrite Nat.odd_succ, <- Nat.negb_odd.
    assert (Hflip : bool_decide (tag ∈ selectedTags (toggleTag tag st))
                    = negb (bool_decide (tag ∈ selectedTags st))).
    { apply eq_true_iff_eq.
      rewrite negb_true_iff, bool_decide_eq_true, bool_decide_eq_false.
      rewrite toggleTag_elem. destruct (decide (tag ∈ selectedTags st)); tauto. }
    rewrite Hflip.
    by destruct (bool_decide (tag ∈ selectedTags st)), (Nat.odd (clicks tag es)).
  - f_equal. apply bool_decide_ext. rewrite toggleTag_elem.
    split; [intros [[? _]|[_ ?]]; [by subst|done]|].
    intros Hin. right. split; [|done]. by intros ->.
Qed.

(** X17. After any sequence of events from the initial state, a tag
    button is pressed exactly when it was clicked an odd number of
    times; so if only buttons of the vocabulary are clicked, the
    selection holds tags of the vocabulary only. *)
Theorem selection_is_click_parity (es : list event) (tag : jsstring) :
  tagPressed (run es initialState) tag = Nat.odd (clicks tag es)
  /\ (tag ∈ selectedTags (run es initialState) <-> Nat.odd (clicks tag es) = true)
  /\ (forall posts,
        (forall t, TagClicked t ∈ es -> t ∈ allTags posts) ->
        tag ∈ selectedTags (run es initialState) -> tag ∈ allTags posts).
Proof.
  assert (Hp : tagPressed (run es initialState) tag = Nat.odd (clicks tag es)).
  { by rewrite pressed_after_run. }
  assert (Hin : tag ∈ selectedTags (run es initialState)
                <-> Nat.odd (clicks tag es) = true).
  { rewrite <- Hp. unfold tagPressed, arrayIncludes. by rewrite bool_decide_eq_true. }
  split_and!; [done|done|].
  intros posts Hbuttons Hsel. apply Hbuttons. apply Hin in Hsel.
  unfold clicks in Hsel.
  destruct (List.filter _ es) as [|e rest] eqn:Hf; [done|].
  assert (He : In e (List.filter
                       (fun e => match e with
                                 | TagClicked t => bool_decide (t = tag)
                                 | _ => false
                                 end) es)) by (rewrite Hf; by left).
  apply filter_In in He as [He Htag]. destruct e as [v|t|v]; try done.
  apply bool_decide_eq_true in Htag as ->. by apply list_elem_of_In.
Qed.

End Buttons.

Lemma allTags_same_posts_witness :
  BlogList.allTags scenarioPosts = BlogList.allTags (rev scenarioPosts ++ scenarioPosts).
Proof.
  apply (allTags_same_posts scenarioPosts (rev scenarioPosts ++ scenarioPosts)).
  intros post. rewrite elem_of_app, elem_of_rev. tauto.
Defined.

(** Posts published at the same time are not turned round. *)
Example tied_posts_oldest :
  List.map (fun p => title (data p))
    (@BlogList.filteredPosts asciiIntl tiedPosts (lit "") [] (lit "oldest"))
  = [lit "Delta"; lit "Alpha"; lit "Gamma"].
Proof. by vm_compute. Qed.

Lemma selection_is_click_parity_witness :
  lit "x" ∈ BlogList.allTags scenarioPosts.
Proof.
  destruct (selection_is_click_parity
              [BlogList.TagClicked (lit "x"); BlogList.SearchTyped (lit "a");
               BlogList.TagClicked (lit "y"); BlogList.TagClicked (lit "y")]
              (lit "x")) as (_ & _ & Hvoc).
  apply (Hvoc scenarioPosts).
  - intros t Ht.
    assert (Hxy : t = lit "x" \/ t = lit "y").
    { apply elem_of_cons in Ht as [Ht|Ht]; [left; congruence|].
      apply elem_of_cons in Ht as [Ht|Ht]; [discriminate Ht|].
      apply elem_of_cons in Ht as [Ht|Ht]; [right; congruence|].
      apply list_elem_of_singleton in Ht. right. congruence. }
    destruct Hxy as [Hx|Hy]; rewrite ?Hx, ?Hy; vm_compute; [left|right; left].
  - vm_compute. left.
Defined.
